(** * Qt-Utils containers: QCircularBuffer and QLinkedHash

    A shallow embedding of [src/list/QCircularBuffer.hpp] and
    [src/list/QLinkedHash.hpp], and the properties of the two containers
    that the specification states.

    The two classes are written against Qt 5 ([QVector], [QList], [QHash]).
    Those classes are a library, not part of the repository; the few members
    the two headers call are embedded here after Qt 5's documented contracts,
    each with the contract it follows. *)

From stdpp Require Import gmap strings list list_numbers fin_maps.

Local Open Scope Z_scope.

(** ** Machine integers

    [size_t] is a 64-bit unsigned integer and [int] a 32-bit signed one; both
    are carried as [Z] and every conversion and every wrapping operation is
    written out. *)

Module CInt.

Definition SIZE_MAX : Z := 2 ^ 64 - 1.
Definition INT_MAX : Z := 2 ^ 31 - 1.

(** Conversion to [size_t]: reduction modulo 2^64. *)
Definition to_size_t (z : Z) : Z := z mod 2 ^ 64.

(** Conversion to [int]: reduction to the range [-2^31, 2^31). *)
Definition to_int (z : Z) : Z := (z + 2 ^ 31) mod 2 ^ 32 - 2 ^ 31.

Definition size_t_add (a b : Z) : Z := to_size_t (a + b).
Definition size_t_sub (a b : Z) : Z := to_size_t (a - b).

End CInt.

(** ** Outcomes of a call

    A member function either returns, or throws [std::out_of_range], or
    has no defined behaviour: a remainder by zero, or a failed [Q_ASSERT]
    inside a Qt container (an index outside the container, a negative
    size). *)

Inductive error : Type :=
| out_of_range
| division_by_zero
| qt_assert.

Inductive result (A : Type) : Type :=
| Ok (a : A)
| Err (e : error).
Arguments Ok {A} a.
Arguments Err {A} e.

Global Instance error_eq_dec : EqDecision error.
Proof. solve_decision. Defined.

(** [a % b] on [size_t] operands. *)
Definition size_t_rem (a b : Z) : result Z :=
  if b =? 0 then Err division_by_zero else Ok (a mod b).

(** A member function runs on its object (of type [S]) and leaves it in a
    state, also when it throws. *)
Definition M (S A : Type) : Type := S → result A * S.

Definition ret {S A} (a : A) : M S A := λ s, (Ok a, s).
Definition throw {S A} (e : error) : M S A := λ s, (Err e, s).
Definition bind {S A B} (m : M S A) (f : A → M S B) : M S B :=
  λ s, match m s with
       | (Ok a, s') => f a s'
       | (Err e, s') => (Err e, s')
       end.
Definition lift {S A} (r : result A) : M S A := λ s, (r, s).
Definition read {S A} (f : S → A) : M S A := λ s, (Ok (f s), s).

(** The caller's [try { ... } catch (const std::out_of_range&) { }]. *)
Definition catch_out_of_range {S} (m : M S unit) : M S unit :=
  λ s, match m s with
       | (Err out_of_range, s') => (Ok tt, s')
       | r => r
       end.

Notation "x <- m ;; k" := (bind m (λ x, k))
  (at level 100, m at next level, right associativity).
Notation "m ;;; k" := (bind m (λ _, k))
  (at level 100, right associativity).

(** ** QCircularBuffer *)

Module CircularBuffer.
Section WithT.

(** The element type and its default-constructed value [T()]. *)
Context {T : Type} (T_default : T).

Import CInt.

(** *** The part of QVector the class uses (Qt 5)

    [QVector<T>(int size)] holds [size] default-constructed elements and
    asserts [size >= 0]; [size()] is an [int]; [operator[](int i)] asserts
    [0 <= i < size()]. *)

Definition QVector_new (asize : Z) : result (list T) :=
  if asize <? 0 then Err qt_assert
  else Ok (replicate (Z.to_nat asize) T_default).

Definition QVector_size (v : list T) : Z := Z.of_nat (length v).

Definition QVector_isEmpty (v : list T) : bool := QVector_size v =? 0.

(** [size()] where it meets a [size_t] operand and is converted to it. *)
Definition QVector_usize (v : list T) : Z := to_size_t (QVector_size v).

(** The element a checked [operator[]] designates: its position in the
    vector. The [size_t] argument is converted to [int] first. *)
Definition QVector_index (v : list T) (i : Z) : result nat :=
  let i := to_int i in
  if (0 <=? i) && (i <? QVector_size v) then Ok (Z.to_nat i)
  else Err qt_assert.

(** *** The object and its member functions *)

Record QCircularBuffer : Type := mkBuffer {
  m_buffer : list T;
  m_start : Z;
  m_size : Z
}.

Definition write_buffer (v : list T) : M QCircularBuffer unit :=
  λ b, (Ok tt, mkBuffer v (m_start b) (m_size b)).
Definition write_start (s : Z) : M QCircularBuffer unit :=
  λ b, (Ok tt, mkBuffer (m_buffer b) s (m_size b)).
Definition write_size (n : Z) : M QCircularBuffer unit :=
  λ b, (Ok tt, mkBuffer (m_buffer b) (m_start b) n).

(** [QCircularBuffer(size_t capacity = 0)]: the capacity is converted to
    the [int] that [QVector]'s constructor takes. *)
Definition new (capacity : Z) : result QCircularBuffer :=
  match QVector_new (to_int capacity) with
  | Ok v => Ok (mkBuffer v 0 0)
  | Err e => Err e
  end.

Definition size (b : QCircularBuffer) : Z := m_size b.
Definition isEmpty (b : QCircularBuffer) : bool := m_size b =? 0.
Definition isFull (b : QCircularBuffer) : bool :=
  m_size b =? QVector_usize (m_buffer b).

(** The body the two [operator[]] overloads share: the range check, then
    the element [m_buffer[(m_start + idx) % m_buffer.size()]]. *)
Definition operator_index_ref (idx : Z) : M QCircularBuffer nat :=
  sz <- read m_size ;;
  if sz <=? idx then throw out_of_range
  else
    st <- read m_start ;;
    buf <- read m_buffer ;;
    p <- lift (size_t_rem (size_t_add st idx) (QVector_usize buf)) ;;
    lift (QVector_index buf p).

(** Reading and writing through the reference [operator[]] returned. *)
Definition deref (r : nat) : M QCircularBuffer T :=
  read (λ b, nth r (m_buffer b) T_default).
Definition assign (r : nat) (val : T) : M QCircularBuffer unit :=
  buf <- read m_buffer ;; write_buffer (<[r := val]> buf).

(** [const T& operator[](size_t idx) const], read by the caller. *)
Definition operator_index (idx : Z) : M QCircularBuffer T :=
  r <- operator_index_ref idx ;; deref r.

(** [buf[idx] = val] through [T& operator[](size_t idx)]. *)
Definition operator_index_assign (idx : Z) (val : T) : M QCircularBuffer unit :=
  r <- operator_index_ref idx ;; assign r val.

Definition clear : M QCircularBuffer unit :=
  write_size 0 ;;; write_start 0.

Definition remove_front : M QCircularBuffer unit :=
  e <- read isEmpty ;;
  if e then ret tt
  else
    st <- read m_start ;;
    buf <- read m_buffer ;;
    s <- lift (size_t_rem (size_t_add st 1) (QVector_usize buf)) ;;
    write_start s ;;;
    sz <- read m_size ;;
    write_size (size_t_sub sz 1).

Definition push_back (val : T) : M QCircularBuffer unit :=
  buf <- read m_buffer ;;
  if QVector_isEmpty buf then ret tt
  else
    sz <- read m_size ;;
    st <- read m_start ;;
    if sz <? QVector_usize buf then
      p <- lift (size_t_rem (size_t_add st sz) (QVector_usize buf)) ;;
      r <- lift (QVector_index buf p) ;;
      assign r val ;;;
      write_size (size_t_add sz 1)
    else
      r <- lift (QVector_index buf st) ;;
      assign r val ;;;
      s <- lift (size_t_rem (size_t_add st 1) (QVector_usize buf)) ;;
      write_start s.

(** The loop body of [front] and [back], over the successive values of
    [_i]: [_res.append(( *this)[_i])]. The counter goes up by one from its
    first value to the bound, which is at most [m_size]. *)
Fixpoint append_each (idxs : list Z) (_res : list T) : M QCircularBuffer (list T) :=
  match idxs with
  | [] => ret _res
  | _i :: rest =>
      x <- operator_index _i ;;
      append_each rest (_res ++ [x])
  end.

(** [n = (n <= 0) ? m_size : std::min(n, m_size)], on [size_t]. *)
Definition clamp_count (n m_size : Z) : Z :=
  if n <=? 0 then m_size else Z.min n m_size.

(** [QList<T> front(size_t n = -1)]: [_i] runs from [0] while [_i < n]. *)
Definition front (n : Z) : M QCircularBuffer (list T) :=
  sz <- read m_size ;;
  let n := clamp_count n sz in
  append_each (seqZ 0 n) [].

(** [QList<T> back(size_t n = -1)]: [_i] runs from [m_size - n] while
    [_i < m_size]. *)
Definition back (n : Z) : M QCircularBuffer (list T) :=
  sz <- read m_size ;;
  let n := clamp_count n sz in
  let first := size_t_sub sz n in
  append_each (seqZ first (sz - first)) [].

(** The omitted argument, [size_t n = -1]. *)
Definition n_default : Z := to_size_t (-1).

(** *** Sequences of calls

    The member functions that change the object; an assignment through
    [operator[]] takes whatever integer the caller writes, converted to
    [size_t]; it may throw, and the caller catches it and goes on. *)
Inductive op : Type :=
| OpClear
| OpRemoveFront
| OpPushBack (val : T)
| OpAssign (idx : Z) (val : T).

Definition run_op (o : op) : M QCircularBuffer unit :=
  match o with
  | OpClear => clear
  | OpRemoveFront => remove_front
  | OpPushBack val => push_back val
  | OpAssign idx val => operator_index_assign (to_size_t idx) val
  end.

Fixpoint run_ops (os : list op) : M QCircularBuffer unit :=
  match os with
  | [] => ret tt
  | o :: rest => catch_out_of_range (run_op o) ;;; run_ops rest
  end.

Fixpoint push_all (vals : list T) : M QCircularBuffer unit :=
  match vals with
  | [] => ret tt
  | val :: rest => push_back val ;;; push_all rest
  end.

(** *** The representation invariant and the logical contents

    What the constructor establishes and every member function keeps:
    the vector's size is an [int], [m_size] is at most the capacity, and
    [m_start] is a slot of the vector (0 when there is none). *)
Definition capacity (b : QCircularBuffer) : Z := QVector_size (m_buffer b).

Record wf (b : QCircularBuffer) : Prop := mkWf {
  wf_capacity : capacity b ≤ INT_MAX;
  wf_size : 0 ≤ m_size b ≤ capacity b;
  wf_start : 0 ≤ m_start b < Z.max 1 (capacity b)
}.

(** The slot of the vector behind the logical index [i]. *)
Definition physical (b : QCircularBuffer) (i : Z) : Z :=
  (m_start b + i) mod capacity b.

Definition slot_value (b : QCircularBuffer) (i : Z) : T :=
  nth (Z.to_nat (physical b i)) (m_buffer b) T_default.

(** The elements at the logical indices [0 .. m_size - 1]. *)
Definition contents (b : QCircularBuffer) : list T :=
  slot_value b <$> seqZ 0 (m_size b).

(** The last [c] elements of a list (all of it when it is shorter). *)
Definition last_n (c : nat) (l : list T) : list T :=
  drop (length l - c)%nat l.

(** A bounded queue on a plain list, of which the class is an
    implementation: what each call does to the logical contents. An
    assignment at an index that the list does not have changes nothing. *)
Definition queue_op (c : nat) (o : op) (q : list T) : list T :=
  match o with
  | OpClear => []
  | OpRemoveFront => drop 1 q
  | OpPushBack val => last_n c (q ++ [val])
  | OpAssign idx val =>
      if to_size_t idx <? Z.of_nat (length q)
      then <[Z.to_nat (to_size_t idx) := val]> q
      else q
  end.

(** [front(k)] followed by [back(size() - k)] is what [front()] returns. *)
Definition front_back_reconstruct (b : QCircularBuffer) (k : Z) : Prop :=
  ∃ xs ys,
    front k b = (Ok xs, b) ∧
    back (size b - k) b = (Ok ys, b) ∧
    front n_default b = (Ok (xs ++ ys), b).

End WithT.
Arguments QCircularBuffer T : clear implicits.
Arguments op T : clear implicits.
End CircularBuffer.

(** ** QLinkedHash *)

Module LinkedHash.
Section WithKeyT.

(** The key type (hashable, with equality), the value type and its
    default-constructed value [T()]. *)
Context {Key : Type} `{Countable Key} {T : Type} (T_default : T).

Import CInt.

(** *** The part of QList the class uses (Qt 5)

    [size()] is an [int]. [indexOf] gives the position of the first
    occurrence, or [-1]. [removeOne] removes the first occurrence.
    [insert(i, value)]: "if i <= 0, the value is prepended to the list; if
    i >= size(), the value is appended to the list". [removeAt(i)] does
    nothing outside [0, size()). [operator[](int i)] asserts
    [0 <= i < size()]. *)

Definition QList_size (l : list Key) : Z := Z.of_nat (length l).

Fixpoint QList_indexOf_from (l : list Key) (key : Key) (from : Z) : Z :=
  match l with
  | [] => -1
  | x :: rest =>
      if decide (x = key) then from
      else QList_indexOf_from rest key (from + 1)
  end.

Definition QList_indexOf (l : list Key) (key : Key) : Z :=
  QList_indexOf_from l key 0.

Fixpoint QList_removeOne (key : Key) (l : list Key) : list Key :=
  match l with
  | [] => []
  | x :: rest =>
      if decide (x = key) then rest else x :: QList_removeOne key rest
  end.

Definition QList_insert (i : Z) (key : Key) (l : list Key) : list Key :=
  if i <=? 0 then key :: l
  else if QList_size l <=? i then l ++ [key]
  else take (Z.to_nat i) l ++ key :: drop (Z.to_nat i) l.

Definition QList_removeAt (i : Z) (l : list Key) : list Key :=
  if (0 <=? i) && (i <? QList_size l) then delete (Z.to_nat i) l else l.

Definition QList_at (l : list Key) (i : Z) : result Key :=
  if (0 <=? i) && (i <? QList_size l) then
    match l !! Z.to_nat i with
    | Some key => Ok key
    | None => Err qt_assert
    end
  else Err qt_assert.

(** *** The part of QHash the class uses

    [contains]; [operator[]] on a const hash, which gives the value or a
    default-constructed one and inserts nothing; [hash[key] = val];
    [remove]. *)

Definition QHash_contains (h : gmap Key T) (key : Key) : bool :=
  bool_decide (is_Some (h !! key)).

Definition QHash_value (h : gmap Key T) (key : Key) : T :=
  default T_default (h !! key).

Definition QHash_assign (h : gmap Key T) (key : Key) (val : T) : gmap Key T :=
  <[key := val]> h.

Definition QHash_remove (h : gmap Key T) (key : Key) : gmap Key T :=
  delete key h.

(** *** The object and its member functions *)

Record QLinkedHash : Type := mkLinkedHash {
  m_hash : gmap Key T;
  m_list : list Key
}.

Definition write_hash (h : gmap Key T) : M QLinkedHash unit :=
  λ m, (Ok tt, mkLinkedHash h (m_list m)).
Definition write_list (l : list Key) : M QLinkedHash unit :=
  λ m, (Ok tt, mkLinkedHash (m_hash m) l).

(** [QLinkedHash() {}] *)
Definition new : QLinkedHash := mkLinkedHash ∅ [].

(** [size_t size() const { return m_list.size(); }] *)
Definition size (m : QLinkedHash) : Z := to_size_t (QList_size (m_list m)).

(** [const T operator[](int idx) const] *)
Definition operator_index (idx : Z) : M QLinkedHash T :=
  l <- read m_list ;;
  if (idx <? QList_size l) && (idx >=? 0) then
    key <- lift (QList_at l idx) ;;
    h <- read m_hash ;;
    ret (QHash_value h key)
  else ret T_default.

(** [const T operator[](const Key& key) const] *)
Definition operator_key (key : Key) : M QLinkedHash T :=
  h <- read m_hash ;;
  if QHash_contains h key then ret (QHash_value h key)
  else ret T_default.

(** [int indexOf(const Key& key) const] *)
Definition indexOf (m : QLinkedHash) (key : Key) : Z :=
  QList_indexOf (m_list m) key.

(** [void insert(int idx, const Key& key, const T& val)] *)
Definition insert (idx : Z) (key : Key) (val : T) : M QLinkedHash unit :=
  l <- read m_list ;;
  if (idx <=? QList_size l) && (idx >=? 0) then
    h <- read m_hash ;;
    (if QHash_contains h key
     then l <- read m_list ;; write_list (QList_removeOne key l)
     else ret tt) ;;;
    l <- read m_list ;;
    write_list (QList_insert idx key l) ;;;
    h <- read m_hash ;;
    write_hash (QHash_assign h key val)
  else ret tt.

(** [void append(const QString& key, const T& val)]: [size()] is a
    [size_t], converted to the [int] that [insert] takes. *)
Definition append (key : Key) (val : T) : M QLinkedHash unit :=
  n <- read size ;;
  insert (to_int n) key val.

(** [void remove(const QString& key)] *)
Definition remove (key : Key) : M QLinkedHash unit :=
  h <- read m_hash ;;
  if QHash_contains h key then
    write_hash (QHash_remove h key) ;;;
    l <- read m_list ;;
    write_list (QList_removeOne key l)
  else ret tt.

(** [void removeAt(int idx)] *)
Definition removeAt (idx : Z) : M QLinkedHash unit :=
  l <- read m_list ;;
  if (idx <? QList_size l) && (idx >=? 0) then
    key <- lift (QList_at l idx) ;;
    h <- read m_hash ;;
    write_hash (QHash_remove h key) ;;;
    l <- read m_list ;;
    write_list (QList_removeAt idx l)
  else ret tt.

(** [const QList<ConvertT> toList() const]: [_i] runs from [0] while
    [_i < m_list.size()], and each step appends
    [ConvertT(m_hash[m_list[_i]])]; [convert] is the conversion to
    [ConvertT]. *)
Fixpoint toList_each {ConvertT : Type} (convert : T → ConvertT)
    (idxs : list Z) (_list : list ConvertT) : M QLinkedHash (list ConvertT) :=
  match idxs with
  | [] => ret _list
  | _i :: rest =>
      l <- read m_list ;;
      key <- lift (QList_at l _i) ;;
      h <- read m_hash ;;
      toList_each convert rest (_list ++ [convert (QHash_value h key)])
  end.

Definition toList {ConvertT : Type} (convert : T → ConvertT)
    : M QLinkedHash (list ConvertT) :=
  l <- read m_list ;;
  toList_each convert (seqZ 0 (QList_size l)) [].

(** *** The iterator

    [class Iterator] holds a pointer to its container and an index. The
    pointer is carried as an address; the member functions that go through
    it run on the container at that address. *)
Record Iterator : Type := mkIterator {
  m_container : positive;
  m_index : Z
}.

(** [Iterator begin()] and [Iterator end()], on the container at [this]. *)
Definition begin (this : positive) : M QLinkedHash Iterator :=
  ret (mkIterator this 0).

Definition end_ (this : positive) : M QLinkedHash Iterator :=
  l <- read m_list ;;
  ret (mkIterator this (QList_size l)).

(** [T& operator*()], read by the caller: [m_hash[m_list[m_index]]] on the
    container itself, not a const one, so that [QHash::operator[]] inserts a
    default-constructed value for a key it does not hold. *)
Definition Iterator_deref (it : Iterator) : M QLinkedHash T :=
  l <- read m_list ;;
  key <- lift (QList_at l (m_index it)) ;;
  h <- read m_hash ;;
  match h !! key with
  | Some val => ret val
  | None => write_hash (<[key := T_default]> h) ;;; ret T_default
  end.

(** [Iterator& operator++()]: [++m_index] on an [int], which has no defined
    result at [INT_MAX]. *)
Definition Iterator_incr (it : Iterator) : option Iterator :=
  if m_index it <? INT_MAX
  then Some (mkIterator (m_container it) (m_index it + 1))
  else None.

(** [bool operator==(const Iterator&) const] and [operator!=]. *)
Definition Iterator_eq (it other : Iterator) : bool :=
  bool_decide (m_container it = m_container other)
  && (m_index it =? m_index other).

Definition Iterator_ne (it other : Iterator) : bool :=
  negb (Iterator_eq it other).

(** The loop the iterator is made for,
    [for (auto it = begin(); it != end(); ++it) out.append( *it)], with
    [end()] evaluated at every test. The loop has no bound of its own:
    [fuel] bounds the number of tests, and [None] is a loop that has not
    finished within it, or one that has incremented past [INT_MAX]. *)
Fixpoint iterate_from (fuel : nat) (this : positive) (it : Iterator)
    (out : list T) : M QLinkedHash (option (list T)) :=
  match fuel with
  | O => ret None
  | S fuel' =>
      last <- end_ this ;;
      if Iterator_ne it last then
        val <- Iterator_deref it ;;
        match Iterator_incr it with
        | Some it' => iterate_from fuel' this it' (out ++ [val])
        | None => ret None
        end
      else ret (Some out)
  end.

Definition iterate (fuel : nat) (this : positive)
    : M QLinkedHash (option (list T)) :=
  it <- begin this ;;
  iterate_from fuel this it [].


(** *** Sequences of mutations *)
Inductive op : Type :=
| OpInsert (idx : Z) (key : Key) (val : T)
| OpAppend (key : Key) (val : T)
| OpRemove (key : Key)
| OpRemoveAt (idx : Z).

Definition run_op (o : op) : M QLinkedHash unit :=
  match o with
  | OpInsert idx key val => insert idx key val
  | OpAppend key val => append key val
  | OpRemove key => remove key
  | OpRemoveAt idx => removeAt idx
  end.

Fixpoint run_ops (os : list op) : M QLinkedHash unit :=
  match os with
  | [] => ret tt
  | o :: rest => run_op o ;;; run_ops rest
  end.

(** *** The invariant between the two members

    Every key of [m_list] occurs in it once, and [m_list] and [m_hash]
    hold the same keys. *)
Definition bijection (m : QLinkedHash) : Prop :=
  NoDup (m_list m) ∧ ∀ key, key ∈ m_list m ↔ is_Some (m_hash m !! key).

(** [QList::size()] is an [int]: no list is longer than [INT_MAX]. *)
Definition fits_int (m : QLinkedHash) : Prop :=
  QList_size (m_list m) ≤ INT_MAX.

End WithKeyT.
Arguments QLinkedHash Key {_ _} T.
Arguments op Key T : clear implicits.
End LinkedHash.

(** ** Sample objects

    Objects on which the statements below are exercised: buffers of
    capacity 3 over [Z] (with [T() = 0]) and a map from strings to [Z]. *)

Module Samples.

(** A buffer as [QCircularBuffer<int>(3)] constructs it. *)
Definition fresh3 : CircularBuffer.QCircularBuffer Z :=
  CircularBuffer.mkBuffer [0; 0; 0] 0 0.

(** After [push_back] of 1, 2, 3. *)
Definition abc3 : CircularBuffer.QCircularBuffer Z :=
  CircularBuffer.mkBuffer [1; 2; 3] 0 3.

(** After [push_back] of 1, 2, 3, 4: the 4 has overwritten the 1. *)
Definition bcd3 : CircularBuffer.QCircularBuffer Z :=
  CircularBuffer.mkBuffer [4; 2; 3] 1 3.

Definition calls : list (CircularBuffer.op Z) :=
  [CircularBuffer.OpPushBack 1; CircularBuffer.OpAssign 5 7;
   CircularBuffer.OpRemoveFront; CircularBuffer.OpPushBack 2;
   CircularBuffer.OpAssign (-1) 8; CircularBuffer.OpPushBack 3;
   CircularBuffer.OpPushBack 4].

(** The map after [append("x", 1); append("y", 2)]. *)
Definition xy : LinkedHash.QLinkedHash string Z :=
  (LinkedHash.run_ops
     [LinkedHash.OpAppend "x"%string 1; LinkedHash.OpAppend "y"%string 2]
     LinkedHash.new).2.

End Samples.


(** * Properties *)

(** ** Machine integers *)

Module CIntFacts.
Import CInt.

Lemma to_size_t_small z : 0 ≤ z ≤ SIZE_MAX → to_size_t z = z.
Proof. unfold to_size_t, SIZE_MAX. intros. apply Z.mod_small. lia. Qed.

Lemma to_int_small z : - 2 ^ 31 ≤ z ≤ INT_MAX → to_int z = z.
Proof. unfold to_int, INT_MAX. intros. rewrite Z.mod_small; lia. Qed.

Lemma INT_MAX_pos : 0 < INT_MAX.
Proof. unfold INT_MAX. lia. Qed.

Lemma two_INT_MAX_le_SIZE_MAX : 2 * INT_MAX + 1 ≤ SIZE_MAX.
Proof. unfold INT_MAX, SIZE_MAX. lia. Qed.

(** A sum of an offset below [c] and an index of at most [c] wraps around
    [c] at most once. *)
Lemma mod_add_once s i c :
  0 ≤ s < c → 0 ≤ i ≤ c →
  (s + i) mod c = if s + i <? c then s + i else s + i - c.
Proof.
  intros Hs Hi. destruct (Z.ltb_spec (s + i) c).
  - apply Z.mod_small. lia.
  - symmetry. apply (Z.mod_unique _ _ 1); lia.
Qed.

Lemma mod_add_inj s i j c :
  0 ≤ s < c → 0 ≤ i < c → 0 ≤ j < c →
  (s + i) mod c = (s + j) mod c → i = j.
Proof.
  intros Hs Hi Hj. rewrite !mod_add_once by lia.
  destruct (Z.ltb_spec (s + i) c), (Z.ltb_spec (s + j) c); lia.
Qed.

End CIntFacts.

(** ** QCircularBuffer *)

Module CircularBufferFacts.
Import CInt CIntFacts CircularBuffer.

Section Facts.
Context {T : Type} (T_default : T).
Implicit Types (b : QCircularBuffer T) (val : T) (l : list T).

Ltac run := cbv [bind read lift ret throw write_start write_size
                 write_buffer assign deref]; simpl.

(** *** Arithmetic on a well-formed buffer *)

Lemma wf_usize b : wf b → QVector_usize (m_buffer b) = capacity b.
Proof.
  intros [Hc Hs Hst]. unfold QVector_usize. fold (capacity b).
  apply to_size_t_small. pose proof two_INT_MAX_le_SIZE_MAX. lia.
Qed.

Lemma wf_start_add b i :
  wf b → 0 ≤ i ≤ capacity b → size_t_add (m_start b) i = m_start b + i.
Proof.
  intros [Hc Hs Hst] Hi. unfold size_t_add. apply to_size_t_small.
  pose proof two_INT_MAX_le_SIZE_MAX. lia.
Qed.

Lemma physical_range b i :
  0 < capacity b → 0 ≤ physical b i < capacity b.
Proof. intros. unfold physical. apply Z.mod_pos_bound. lia. Qed.

Lemma QVector_index_ok b p :
  wf b → 0 ≤ p < capacity b →
  QVector_index (m_buffer b) p = Ok (Z.to_nat p).
Proof.
  intros [Hc Hs Hst] Hp. unfold QVector_index. fold (capacity b).
  rewrite to_int_small by lia.
  destruct (Z.leb_spec 0 p), (Z.ltb_spec p (capacity b)); simpl; lia || done.
Qed.

Lemma size_t_rem_ok a c : c ≠ 0 → size_t_rem a c = Ok (a mod c).
Proof. intros. unfold size_t_rem. by destruct (Z.eqb_spec c 0). Qed.

(** *** [operator[]] *)

Lemma operator_index_ref_throw b idx :
  m_size b ≤ idx → operator_index_ref idx b = (Err out_of_range, b).
Proof.
  intros. unfold operator_index_ref. run.
  by destruct (Z.leb_spec (m_size b) idx); [|lia].
Qed.

Lemma operator_index_ref_ok b idx :
  wf b → 0 ≤ idx < m_size b →
  operator_index_ref idx b = (Ok (Z.to_nat (physical b idx)), b).
Proof.
  intros Hwf Hi. pose proof Hwf as [Hc Hs Hst].
  unfold operator_index_ref. run.
  destruct (Z.leb_spec (m_size b) idx); [lia|].
  rewrite wf_usize, wf_start_add by (done || lia).
  rewrite size_t_rem_ok by lia.
  fold (physical b idx).
  by rewrite QVector_index_ok by (done || apply physical_range; lia).
Qed.

Lemma operator_index_ok b idx :
  wf b → 0 ≤ idx < m_size b →
  operator_index T_default idx b = (Ok (slot_value T_default b idx), b).
Proof.
  intros. unfold operator_index. run.
  by rewrite operator_index_ref_ok.
Qed.

Lemma operator_index_throw b idx :
  m_size b ≤ idx → operator_index T_default idx b = (Err out_of_range, b).
Proof.
  intros. unfold operator_index. run.
  by rewrite operator_index_ref_throw.
Qed.

Lemma operator_index_assign_ok b idx val :
  wf b → 0 ≤ idx < m_size b →
  operator_index_assign idx val b =
    (Ok tt, mkBuffer (<[Z.to_nat (physical b idx) := val]> (m_buffer b))
                     (m_start b) (m_size b)).
Proof.
  intros. unfold operator_index_assign. run.
  by rewrite operator_index_ref_ok.
Qed.

Lemma operator_index_assign_throw b idx val :
  m_size b ≤ idx → operator_index_assign idx val b = (Err out_of_range, b).
Proof.
  intros. unfold operator_index_assign. run.
  by rewrite operator_index_ref_throw.
Qed.

(** *** The member functions that change the object *)

Lemma clear_spec b : clear b = (Ok tt, mkBuffer (m_buffer b) 0 0).
Proof. reflexivity. Qed.

Lemma remove_front_empty b :
  m_size b = 0 → remove_front b = (Ok tt, b).
Proof. intros E. unfold remove_front, isEmpty. run. by rewrite E. Qed.

Lemma remove_front_nonempty b :
  wf b → 0 < m_size b →
  remove_front b =
    (Ok tt, mkBuffer (m_buffer b) (physical b 1) (m_size b - 1)).
Proof.
  intros Hwf Hn. pose proof Hwf as [Hc Hs Hst].
  unfold remove_front, isEmpty. run.
  destruct (Z.eqb_spec (m_size b) 0); [lia|].
  rewrite wf_usize, wf_start_add by (done || lia).
  rewrite size_t_rem_ok by lia. simpl.
  unfold size_t_sub. rewrite to_size_t_small; [done|].
  pose proof two_INT_MAX_le_SIZE_MAX. lia.
Qed.

Lemma push_back_no_capacity b val :
  capacity b = 0 → push_back val b = (Ok tt, b).
Proof.
  intros E. unfold push_back, QVector_isEmpty. run.
  fold (capacity b). by rewrite E.
Qed.

Lemma push_back_room b val :
  wf b → m_size b < capacity b →
  push_back val b =
    (Ok tt, mkBuffer (<[Z.to_nat (physical b (m_size b)) := val]> (m_buffer b))
                     (m_start b) (m_size b + 1)).
Proof.
  intros Hwf Hn. pose proof Hwf as [Hc Hs Hst].
  unfold push_back, QVector_isEmpty. run. fold (capacity b).
  destruct (Z.eqb_spec (capacity b) 0); [lia|].
  rewrite wf_usize, wf_start_add by (done || lia).
  destruct (Z.ltb_spec (m_size b) (capacity b)); [|lia].
  rewrite size_t_rem_ok by lia. simpl. fold (physical b (m_size b)).
  rewrite QVector_index_ok by (done || apply physical_range; lia). simpl.
  unfold size_t_add. rewrite to_size_t_small; [done|].
  pose proof two_INT_MAX_le_SIZE_MAX. lia.
Qed.

Lemma push_back_full b val :
  wf b → 0 < capacity b → m_size b = capacity b →
  push_back val b =
    (Ok tt, mkBuffer (<[Z.to_nat (m_start b) := val]> (m_buffer b))
                     (physical b 1) (m_size b)).
Proof.
  intros Hwf Hp Hn. pose proof Hwf as [Hc Hs Hst].
  unfold push_back, QVector_isEmpty. run. fold (capacity b).
  destruct (Z.eqb_spec (capacity b) 0); [lia|].
  rewrite wf_usize by done.
  destruct (Z.ltb_spec (m_size b) (capacity b)); [lia|].
  rewrite QVector_index_ok by (done || lia). simpl.
  rewrite wf_start_add by (done || lia).
  by rewrite size_t_rem_ok by lia.
Qed.

(** *** The invariant is established and kept *)

Lemma new_ok c :
  0 ≤ c ≤ INT_MAX →
  new T_default c = Ok (mkBuffer (replicate (Z.to_nat c) T_default) 0 0).
Proof.
  intros Hc. unfold new, QVector_new. rewrite to_int_small by lia.
  by destruct (Z.ltb_spec c 0); [lia|].
Qed.

Lemma new_wf c b : new T_default c = Ok b → wf b ∧ m_size b = 0.
Proof.
  unfold new, QVector_new.
  destruct (Z.ltb_spec (to_int c) 0); [done|].
  intros [= <-]. split; [|done].
  assert (to_int c ≤ INT_MAX).
  { unfold to_int, INT_MAX.
    pose proof (Z.mod_pos_bound (c + 2 ^ 31) (2 ^ 32)). lia. }
  split; unfold capacity, QVector_size; simpl;
    rewrite ?length_replicate; lia.
Qed.

Lemma wf_set_buffer b r val s n :
  wf b → 0 ≤ n ≤ capacity b → 0 ≤ s < Z.max 1 (capacity b) →
  wf (mkBuffer (<[r := val]> (m_buffer b)) s n).
Proof.
  intros [Hc Hs Hst] ? ?.
  split; unfold capacity, QVector_size in *; simpl;
    rewrite ?length_insert; lia.
Qed.

Lemma wf_set_fields b s n :
  wf b → 0 ≤ n ≤ capacity b → 0 ≤ s < Z.max 1 (capacity b) →
  wf (mkBuffer (m_buffer b) s n).
Proof.
  intros [Hc Hs Hst] ? ?.
  split; unfold capacity, QVector_size in *; simpl; lia.
Qed.

Lemma clear_wf b : wf b → wf (clear b).2.
Proof. intros Hwf. pose proof Hwf as [? ? ?].
  rewrite clear_spec. apply wf_set_fields; [done|lia|lia].
Qed.

Lemma remove_front_wf b : wf b → wf (remove_front b).2.
Proof.
  intros Hwf. pose proof Hwf as [? ? ?].
  destruct (Z.eq_dec (m_size b) 0).
  - by rewrite remove_front_empty.
  - rewrite remove_front_nonempty by (done || lia).
    pose proof (physical_range b 1).
    apply wf_set_fields; [done|lia|lia].
Qed.

Lemma push_back_wf b val : wf b → wf (push_back val b).2.
Proof.
  intros Hwf. pose proof Hwf as [? ? ?].
  destruct (Z.eq_dec (capacity b) 0).
  - by rewrite push_back_no_capacity.
  - destruct (Z.eq_dec (m_size b) (capacity b)).
    + rewrite push_back_full by (done || lia).
      pose proof (physical_range b 1).
      apply wf_set_buffer; [done|lia|lia].
    + rewrite push_back_room by (done || lia).
      apply wf_set_buffer; [done|lia|lia].
Qed.

Lemma operator_index_assign_wf b idx val :
  wf b → wf (operator_index_assign idx val b).2.
Proof.
  intros Hwf. pose proof Hwf as [? ? ?].
  destruct (Z.le_gt_cases (m_size b) idx).
  - by rewrite operator_index_assign_throw.
  - destruct (Z.le_gt_cases 0 idx).
    + rewrite operator_index_assign_ok by (done || lia).
      by apply wf_set_buffer.
    + (* a negative index never reaches a caller's [size_t] argument *)
      unfold operator_index_assign, operator_index_ref. run.
      destruct (Z.leb_spec (m_size b) idx); [lia|].
      destruct (size_t_rem _ _); simpl; [|done].
      destruct (QVector_index _ _); simpl; [|done].
      by apply wf_set_buffer.
Qed.

(** *** The logical contents *)

Lemma nth_insert_eq l (r : nat) val :
  (r < length l)%nat → nth r (<[r := val]> l) T_default = val.
Proof. intros. by rewrite nth_lookup, list_lookup_insert_eq. Qed.

Lemma nth_insert_ne l (r r' : nat) val :
  r ≠ r' → nth r' (<[r := val]> l) T_default = nth r' l T_default.
Proof. intros. by rewrite !nth_lookup, list_lookup_insert_ne. Qed.

Lemma length_contents b :
  length (contents T_default b) = Z.to_nat (m_size b).
Proof. unfold contents. by rewrite length_fmap, length_seqZ. Qed.

Lemma contents_nth b i :
  0 ≤ i < m_size b →
  nth (Z.to_nat i) (contents T_default b) T_default = slot_value T_default b i.
Proof.
  intros. unfold contents. rewrite nth_lookup, list_lookup_fmap.
  rewrite lookup_seqZ_lt by lia. simpl. f_equal. lia.
Qed.

Lemma contents_no_capacity b : wf b → capacity b = 0 → contents T_default b = [].
Proof.
  intros [Hc Hs Hst] E. unfold contents.
  by rewrite seqZ_nil by lia.
Qed.

Lemma last_n_short (c : nat) l : (length l ≤ c)%nat → last_n c l = l.
Proof. intros. unfold last_n. by replace (length l - c)%nat with 0%nat by lia. Qed.

Lemma last_n_snoc_full (c : nat) l val :
  length l = c → (0 < c)%nat → last_n c (l ++ [val]) = drop 1 l ++ [val].
Proof.
  intros E Hc. unfold last_n. rewrite length_app. simpl.
  replace (length l + 1 - c)%nat with 1%nat by lia.
  destruct l; simpl in *; [lia|done].
Qed.

Lemma last_n_app (c : nat) l l' :
  last_n c (last_n c l ++ l') = last_n c (l ++ l').
Proof.
  unfold last_n. rewrite !length_app, length_drop.
  destruct (Nat.le_gt_cases (length l) c).
  - replace (length l - c)%nat with 0%nat by lia.
    by rewrite drop_0, Nat.sub_0_r.
  - replace (length l - (length l - c) + length l' - c)%nat
      with (length l') by lia.
    replace (length l + length l' - c)%nat
      with ((length l - c) + length l')%nat by lia.
    rewrite <- drop_drop. f_equal.
    by rewrite drop_app_le by lia.
Qed.

Lemma contents_push_back_room b val :
  wf b → m_size b < capacity b →
  contents T_default
    (mkBuffer (<[Z.to_nat (physical b (m_size b)) := val]> (m_buffer b))
              (m_start b) (m_size b + 1))
  = contents T_default b ++ [val].
Proof.
  intros Hwf Hn. pose proof Hwf as [Hc Hs Hst].
  pose proof (physical_range b (m_size b)) as Hp.
  unfold contents; simpl.
  rewrite seqZ_app by lia. rewrite fmap_app. f_equal.
  - apply list_fmap_ext. intros k i Hi.
    apply lookup_seqZ in Hi as [-> Hk].
    pose proof (physical_range b (0 + Z.of_nat k)).
    unfold slot_value, physical, capacity, QVector_size in *; simpl.
    rewrite length_insert. apply nth_insert_ne.
    intros E. apply Z2Nat.inj in E; [|lia..].
    apply mod_add_inj in E; lia.
  - rewrite seqZ_cons, seqZ_nil by lia. simpl.
    unfold slot_value, physical, capacity, QVector_size in *; simpl.
    rewrite length_insert. f_equal. apply nth_insert_eq. lia.
Qed.

Lemma physical_shift b i :
  0 < capacity b → (physical b 1 + i) mod capacity b = physical b (1 + i).
Proof.
  intros. unfold physical. rewrite Z.add_mod_idemp_l by lia. f_equal. lia.
Qed.

Lemma contents_push_back_full b val :
  wf b → 0 < capacity b → m_size b = capacity b →
  contents T_default
    (mkBuffer (<[Z.to_nat (m_start b) := val]> (m_buffer b))
              (physical b 1) (m_size b))
  = drop 1 (contents T_default b) ++ [val].
Proof.
  intros Hwf Hp Hn. pose proof Hwf as [Hc Hs Hst].
  assert (m_start b = physical b 0) as Hst0.
  { unfold physical. rewrite Z.add_0_r, Z.mod_small; lia. }
  set (b' := mkBuffer _ _ _).
  assert (∀ i, physical b' i = physical b (1 + i)) as Hph.
  { intros i. unfold physical at 1, capacity at 1, QVector_size. simpl.
    rewrite length_insert. by apply physical_shift. }
  assert (∀ i, 0 ≤ i < m_size b - 1 →
               slot_value T_default b' i = slot_value T_default b (1 + i))
    as Hmoved.
  { intros i Hi. unfold slot_value. rewrite Hph. simpl.
    pose proof (physical_range b (1 + i)).
    pose proof (physical_range b 0).
    apply nth_insert_ne. rewrite Hst0.
    intros E. apply Z2Nat.inj in E; [|lia..].
    apply mod_add_inj in E; lia. }
  assert (slot_value T_default b' (m_size b - 1) = val) as Hnew.
  { unfold slot_value. rewrite Hph. simpl.
    replace (physical b (1 + (m_size b - 1))) with (m_start b).
    - apply nth_insert_eq. unfold capacity, QVector_size in *. lia.
    - unfold physical.
      replace (m_start b + (1 + (m_size b - 1)))
        with (m_start b + 1 * capacity b) by lia.
      rewrite Z.mod_add, Z.mod_small; lia. }
  unfold contents. change (m_size b') with (m_size b). clearbody b'.
  trans (slot_value T_default b' <$>
           (seqZ 0 (m_size b - 1) ++ [m_size b - 1])).
  { f_equal. replace (m_size b) with ((m_size b - 1) + 1) at 1 by lia.
    by rewrite seqZ_app by lia. }
  rewrite (seqZ_cons 0 (m_size b)) by lia. simpl. rewrite drop_0.
  rewrite fmap_app. simpl. rewrite Hnew. f_equal.
  rewrite <- (fmap_add_seqZ 1 0), <- list_fmap_compose.
  apply list_fmap_ext. intros k i Hi.
  apply lookup_seqZ in Hi as [-> Hk]. simpl.
  apply Hmoved. lia.
Qed.

Lemma push_back_spec b val :
  wf b →
  ∃ b', push_back val b = (Ok tt, b') ∧ wf b' ∧
        capacity b' = capacity b ∧
        contents T_default b' =
          last_n (Z.to_nat (capacity b)) (contents T_default b ++ [val]).
Proof.
  intros Hwf. pose proof Hwf as [Hc Hs Hst].
  pose proof (push_back_wf b val Hwf) as Hwf'.
  pose proof (length_contents b) as Hlen.
  destruct (Z.eq_dec (capacity b) 0) as [E0|].
  - rewrite push_back_no_capacity in * by done.
    eexists; split_and!; [done..|].
    rewrite contents_no_capacity by done. by rewrite E0.
  - destruct (Z.eq_dec (m_size b) (capacity b)) as [E|].
    + rewrite push_back_full in * by (done || lia).
      eexists; split_and!; [done..| |].
      * unfold capacity, QVector_size. simpl. by rewrite length_insert.
      * rewrite contents_push_back_full by (done || lia).
        rewrite last_n_snoc_full; [done|lia..].
    + rewrite push_back_room in * by (done || lia).
      eexists; split_and!; [done..| |].
      * unfold capacity, QVector_size. simpl. by rewrite length_insert.
      * rewrite contents_push_back_room by (done || lia).
        rewrite last_n_short; [done|]. rewrite length_app. simpl. lia.
Qed.

Lemma push_all_spec vals b :
  wf b →
  ∃ b', push_all vals b = (Ok tt, b') ∧ wf b' ∧
        capacity b' = capacity b ∧
        contents T_default b' =
          last_n (Z.to_nat (capacity b)) (contents T_default b ++ vals).
Proof.
  revert b. induction vals as [|val vals IH]; intros b Hwf.
  - exists b. split_and!; [done..|].
    rewrite app_nil_r, last_n_short; [done|].
    rewrite length_contents. destruct Hwf. lia.
  - destruct (push_back_spec b val Hwf) as (b1 & E1 & Hwf1 & Hc1 & Hl1).
    destruct (IH b1 Hwf1) as (b' & E' & Hwf' & Hc' & Hl').
    exists b'. split_and!; [|done|congruence|].
    + simpl. unfold bind. by rewrite E1.
    + rewrite Hl', Hc1, Hl1, last_n_app. by rewrite <- app_assoc.
Qed.

(** *** [front] and [back] *)

Lemma append_each_spec b idxs acc :
  wf b → (∀ i, i ∈ idxs → 0 ≤ i < m_size b) →
  append_each T_default idxs acc b =
    (Ok (acc ++ (slot_value T_default b <$> idxs)), b).
Proof.
  intros Hwf. revert acc. induction idxs as [|i idxs IH]; intros acc Hin.
  - simpl. by rewrite app_nil_r.
  - simpl. unfold bind.
    rewrite operator_index_ok by (done || apply Hin; left).
    rewrite IH by (intros; apply Hin; by right).
    by rewrite <- app_assoc.
Qed.

Lemma clamp_count_range n sz :
  0 ≤ sz → 0 ≤ clamp_count n sz ≤ sz.
Proof. intros. unfold clamp_count. destruct (Z.leb_spec n 0); lia. Qed.

Lemma front_spec b n :
  wf b →
  front T_default n b =
    (Ok (slot_value T_default b <$> seqZ 0 (clamp_count n (m_size b))), b).
Proof.
  intros Hwf. pose proof Hwf as [Hc Hs Hst].
  pose proof (clamp_count_range n (m_size b)).
  unfold front. run. rewrite append_each_spec; [done..|].
  intros i Hi%elem_of_seqZ. lia.
Qed.

Lemma back_spec b n :
  wf b →
  back T_default n b =
    (Ok (slot_value T_default b <$>
           seqZ (m_size b - clamp_count n (m_size b))
                (clamp_count n (m_size b))), b).
Proof.
  intros Hwf. pose proof Hwf as [Hc Hs Hst].
  pose proof (clamp_count_range n (m_size b)).
  pose proof two_INT_MAX_le_SIZE_MAX.
  unfold back. run. unfold size_t_sub.
  rewrite to_size_t_small by lia.
  replace (m_size b - (m_size b - clamp_count n (m_size b)))
    with (clamp_count n (m_size b)) by lia.
  rewrite append_each_spec; [done..|].
  intros i Hi%elem_of_seqZ. lia.
Qed.

Lemma front_default_spec b :
  wf b → front T_default n_default b = (Ok (contents T_default b), b).
Proof.
  intros Hwf. rewrite front_spec by done. unfold contents.
  do 3 f_equal. destruct Hwf as [Hc Hs Hst].
  unfold clamp_count, n_default, to_size_t, INT_MAX in *.
  change ((-1) `mod` 2 ^ 64) with (2 ^ 64 - 1). simpl. f_equal. lia.
Qed.

(** *** Sequences of calls keep the invariant and never leave defined
    behaviour *)

Lemma run_op_wf b o :
  wf b →
  wf (run_op o b).2 ∧
  ((run_op o b).1 = Ok tt ∨
   (run_op o b).1 = Err out_of_range ∧ (run_op o b).2 = b).
Proof.
  intros Hwf. destruct o as [| |val|idx val]; simpl.
  - split; [by apply clear_wf|by left].
  - split; [by apply remove_front_wf|]. left.
    destruct (Z.eq_dec (m_size b) 0).
    + by rewrite remove_front_empty.
    + destruct Hwf. by rewrite remove_front_nonempty by (done || lia).
  - split; [by apply push_back_wf|]. left.
    by destruct (push_back_spec b val Hwf) as (b' & -> & _).
  - pose proof (Z.mod_pos_bound idx (2 ^ 64)).
    split; [by apply operator_index_assign_wf|].
    destruct (Z.le_gt_cases (m_size b) (to_size_t idx)).
    + right. by rewrite operator_index_assign_throw.
    + left. rewrite operator_index_assign_ok; [done..|].
      unfold to_size_t in *. lia.
Qed.

Lemma run_ops_wf os b :
  wf b → (run_ops os b).1 = Ok tt ∧ wf (run_ops os b).2.
Proof.
  revert b. induction os as [|o os IH]; intros b Hwf; [done|].
  simpl. unfold bind, catch_out_of_range.
  destruct (run_op_wf b o Hwf) as [Hwf' Hr].
  destruct (run_op o b) as [r b1]. simpl in *.
  destruct Hr as [->|[-> ->]]; by apply IH.
Qed.

(** Every buffer that the constructor and a sequence of calls produce is
    well-formed. *)
Lemma constructed_wf (c : Z) (os : list (op T)) b0 r b :
  new T_default c = Ok b0 → run_ops os b0 = (r, b) → wf b.
Proof.
  intros Hnew Hrun. destruct (new_wf _ _ Hnew) as [Hwf0 _].
  destruct (run_ops_wf os b0 Hwf0) as [_ Hwf]. by rewrite Hrun in Hwf.
Qed.

Lemma isFull_true b : wf b → isFull b = true ↔ m_size b = capacity b.
Proof.
  intros Hwf. unfold isFull. rewrite wf_usize by done.
  by rewrite Z.eqb_eq.
Qed.

(** *** The properties the specification states *)

(** C2. On a buffer of capacity [c], after [n >= c] calls of [push_back]
    and nothing else, [size()] is [c] and positional access at the indices
    [0 .. c-1] reads the last [c] pushed values, in the order they were
    pushed. *)
Theorem push_back_keeps_last_capacity b (vals : list T) :
  wf b → capacity b ≤ Z.of_nat (length vals) →
  ∃ b',
    push_all vals b = (Ok tt, b') ∧
    size b' = capacity b ∧
    ∀ i, 0 ≤ i < capacity b →
      operator_index T_default i b' =
        (Ok (nth (Z.to_nat (Z.of_nat (length vals) - capacity b + i))
                 vals T_default), b').
Proof.
  intros Hwf Hn.
  destruct (push_all_spec vals b Hwf) as (b' & Hrun & Hwf' & Hcap & Hcont).
  assert (0 ≤ capacity b) as Hc0 by (unfold capacity, QVector_size; lia).
  assert (contents T_default b' =
            drop (length vals - Z.to_nat (capacity b)) vals) as Hlast.
  { rewrite Hcont. unfold last_n. rewrite length_app.
    replace (length (contents T_default b) + length vals
               - Z.to_nat (capacity b))%nat
      with (length (contents T_default b)
              + (length vals - Z.to_nat (capacity b)))%nat by lia.
    by rewrite drop_app_add. }
  assert (m_size b' = capacity b) as Hsize.
  { pose proof (length_contents b') as Hlen. rewrite Hlast in Hlen.
    rewrite length_drop in Hlen. destruct Hwf'. lia. }
  exists b'. split_and!; [done..|].
  intros i Hi.
  rewrite operator_index_ok by (done || lia).
  rewrite <- contents_nth by lia. rewrite Hlast.
  rewrite !nth_lookup, lookup_drop. do 4 f_equal. lia.
Qed.

(** C5, as the code has it. For [0 < k < size()], [front(k)] followed by
    [back(size() - k)] is the whole logical contents. At [k = 0] and at
    [k = size()] one of the two calls has the argument 0, for which the
    whole contents are returned, so that the concatenation holds every
    element twice. *)
Theorem front_back_split b (k : Z) :
  wf b →
  (0 < k < size b →
     front_back_reconstruct T_default b k ∧
     ∃ xs ys, front T_default k b = (Ok xs, b) ∧
              back T_default (size b - k) b = (Ok ys, b) ∧
              xs ++ ys = contents T_default b) ∧
  (k = 0 ∨ k = size b →
     ∃ xs ys, front T_default k b = (Ok xs, b) ∧
              back T_default (size b - k) b = (Ok ys, b) ∧
              xs ++ ys = contents T_default b ++ contents T_default b).
Proof.
  intros Hwf. pose proof Hwf as [Hc Hs Hst]. unfold size.
  assert (∀ n, 0 < n ≤ m_size b → clamp_count n (m_size b) = n) as Hpos.
  { intros n Hn. unfold clamp_count. destruct (Z.leb_spec n 0); lia. }
  assert (clamp_count 0 (m_size b) = m_size b) as Hzero by done.
  split.
  - intros Hk.
    assert (front T_default k b =
              (Ok (slot_value T_default b <$> seqZ 0 k), b)) as Hf.
    { rewrite front_spec by done. by rewrite Hpos by lia. }
    assert (back T_default (m_size b - k) b =
              (Ok (slot_value T_default b <$> seqZ k (m_size b - k)), b))
      as Hb.
    { rewrite back_spec by done. rewrite Hpos by lia.
      do 4 f_equal. lia. }
    assert ((slot_value T_default b <$> seqZ 0 k) ++
            (slot_value T_default b <$> seqZ k (m_size b - k))
            = contents T_default b) as Happ.
    { unfold contents. rewrite <- fmap_app. f_equal.
      replace (m_size b) with (k + (m_size b - k)) at 2 by lia.
      by rewrite seqZ_app by lia. }
    split.
    + eexists _, _. split_and!; [done..|].
      rewrite Happ. by apply front_default_spec.
    + by eexists _, _.
  - intros Hk. eexists _, _. rewrite front_spec, back_spec by done.
    split_and!; [done..|]. unfold contents.
    destruct Hk as [->| ->].
    + rewrite Z.sub_0_r, Hzero. destruct (Z.eq_dec (m_size b) 0) as [E|].
      * by rewrite E.
      * rewrite Hpos by lia. by rewrite Z.sub_diag.
    + rewrite Z.sub_diag, Hzero. destruct (Z.eq_dec (m_size b) 0) as [E|].
      * by rewrite E.
      * rewrite Hpos by lia. by rewrite Z.sub_diag.
Qed.

(** C6. On a full buffer of capacity above 0, [remove_front] followed by
    [push_back(val)] leaves the object as [push_back(val)] alone does:
    the oldest element is gone and [val] is the newest. *)
Theorem remove_front_push_back_on_full b val :
  wf b → 0 < capacity b → isFull b = true →
  ∃ b',
    push_back val b = (Ok tt, b') ∧
    (remove_front ;;; push_back val) b = (Ok tt, b') ∧
    front T_default n_default b' =
      (Ok (drop 1 (contents T_default b) ++ [val]), b').
Proof.
  intros Hwf Hp Hfull. apply isFull_true in Hfull; [|done].
  pose proof Hwf as [Hc Hs Hst].
  pose proof (push_back_wf b val Hwf) as Hwf'.
  rewrite push_back_full in * by done.
  eexists. split; [done|]. split.
  - unfold bind at 1. rewrite remove_front_nonempty by (done || lia).
    pose proof (remove_front_wf b Hwf) as Hwf1.
    rewrite remove_front_nonempty in Hwf1 by (done || lia). simpl in Hwf1.
    rewrite push_back_room; [|done|simpl; unfold capacity in *; simpl; lia].
    simpl. do 2 f_equal; [|lia].
    do 2 f_equal. unfold physical at 1, capacity at 1. simpl.
    fold (capacity b). rewrite physical_shift by done. unfold physical.
    replace (m_start b + (1 + (m_size b - 1)))
      with (m_start b + 1 * capacity b) by lia.
    rewrite Z.mod_add, Z.mod_small; lia.
  - rewrite front_default_spec by done.
    by rewrite contents_push_back_full.
Qed.

(** C7. Positional access through either [operator[]] throws
    [std::out_of_range] exactly when the index is [size()] or more; below
    [size()] it returns and designates the slot
    [(m_start + idx) % capacity] of the vector; and a call that throws
    leaves the object as it was. *)
Theorem positional_access_hard_fail b (idx : Z) val :
  wf b → 0 ≤ idx ≤ SIZE_MAX →
  ((operator_index T_default idx b).1 = Err out_of_range ↔ size b ≤ idx) ∧
  ((operator_index_assign idx val b).1 = Err out_of_range ↔ size b ≤ idx) ∧
  (idx < size b →
     operator_index T_default idx b =
       (Ok (nth (Z.to_nat ((m_start b + idx) mod capacity b))
                (m_buffer b) T_default), b) ∧
     operator_index_assign idx val b =
       (Ok tt, mkBuffer (<[Z.to_nat ((m_start b + idx) mod capacity b) := val]>
                           (m_buffer b))
                        (m_start b) (m_size b))) ∧
  (size b ≤ idx →
     (operator_index T_default idx b).2 = b ∧
     (operator_index_assign idx val b).2 = b).
Proof.
  intros Hwf Hidx. unfold size.
  destruct (Z.le_gt_cases (m_size b) idx) as [Hout|Hin].
  - rewrite operator_index_throw, operator_index_assign_throw by done.
    simpl. split_and!; [done|done|lia|done].
  - rewrite operator_index_ok, operator_index_assign_ok by (done || lia).
    simpl. split_and!; [split; [done|lia]|split; [done|lia]|done|lia].
Qed.

(** C9. A buffer constructed with capacity 0 stays as constructed under
    every sequence of calls: [size()] is 0, [isEmpty()] and [isFull()] are
    true, and each of [push_back], [remove_front] and [clear] returns
    without an error and changes nothing. *)
Theorem capacity_zero_is_inert (os : list (op T)) :
  ∃ b,
    new T_default 0 = Ok b ∧
    run_ops os b = (Ok tt, b) ∧
    size b = 0 ∧ isEmpty b = true ∧ isFull b = true ∧
    (∀ val, push_back val b = (Ok tt, b)) ∧
    remove_front b = (Ok tt, b) ∧
    clear b = (Ok tt, b).
Proof.
  exists (mkBuffer [] 0 0). split; [done|]. split; [|done].
  induction os as [|o os IH]; [done|].
  simpl. unfold bind, catch_out_of_range.
  destruct o as [| |val|idx val]; try done. simpl.
  rewrite operator_index_assign_throw; [done|]. simpl.
  pose proof (Z.mod_pos_bound idx (2 ^ 64)). unfold to_size_t. lia.
Qed.

(** C10. From construction on, under every sequence of calls, no member
    function that takes a remainder by the capacity takes it by zero:
    positional access reaches it only below [size()], [remove_front] only
    on a non-empty buffer and [push_back] only above capacity 0. *)
Theorem remainder_never_by_zero (c : Z) (os : list (op T)) b0 r b :
  new T_default c = Ok b0 → run_ops os b0 = (r, b) →
  r = Ok tt ∧
  ∀ idx val,
    (operator_index T_default (to_size_t idx) b).1 ≠ Err division_by_zero ∧
    (operator_index_assign (to_size_t idx) val b).1 ≠ Err division_by_zero ∧
    (remove_front b).1 ≠ Err division_by_zero ∧
    (push_back val b).1 ≠ Err division_by_zero.
Proof.
  intros Hnew Hrun. destruct (new_wf _ _ Hnew) as [Hwf0 _].
  destruct (run_ops_wf os b0 Hwf0) as [Hr Hwf]. rewrite Hrun in Hr, Hwf.
  simpl in *. split; [done|]. intros idx val.
  pose proof (Z.mod_pos_bound idx (2 ^ 64)).
  destruct (run_op_wf b (OpRemoveFront) Hwf) as [_ Hrf].
  destruct (run_op_wf b (OpPushBack val) Hwf) as [_ Hpb].
  destruct (run_op_wf b (OpAssign idx val) Hwf) as [_ Has].
  simpl in *. split_and!.
  - destruct (Z.le_gt_cases (m_size b) (to_size_t idx)).
    + by rewrite operator_index_throw.
    + rewrite operator_index_ok; [done..|]. unfold to_size_t in *. lia.
  - destruct Has as [->|[-> _]]; done.
  - destruct Hrf as [->|[-> _]]; done.
  - destruct Hpb as [->|[-> _]]; done.
Qed.

End Facts.
End CircularBufferFacts.

(** ** QLinkedHash *)

Module LinkedHashFacts.
Import CInt CIntFacts LinkedHash.

Section Facts.
Context {Key : Type} `{Countable Key} {T : Type} (T_default : T).
Implicit Types (m : QLinkedHash Key T) (l : list Key) (key : Key) (val : T).
Implicit Types (h : gmap Key T).

Ltac run := cbv [bind read lift ret throw write_hash write_list]; simpl.

(** *** QList *)

Lemma QList_insert_eq i key l :
  QList_insert i key l =
    take (Z.to_nat i) l ++ key :: drop (Z.to_nat i) l.
Proof.
  unfold QList_insert, QList_size.
  destruct (Z.leb_spec i 0).
  - by replace (Z.to_nat i) with 0%nat by lia.
  - destruct (Z.leb_spec (Z.of_nat (length l)) i); [|done].
    by rewrite take_ge, drop_ge by lia.
Qed.

Lemma elem_of_QList_insert i key l x :
  x ∈ QList_insert i key l ↔ x = key ∨ x ∈ l.
Proof.
  rewrite QList_insert_eq. rewrite <- (take_drop (Z.to_nat i) l) at 3.
  rewrite !elem_of_app, elem_of_cons. tauto.
Qed.

Lemma NoDup_QList_insert i key l :
  NoDup l → key ∉ l → NoDup (QList_insert i key l).
Proof.
  intros Hnd Hnotin. rewrite QList_insert_eq.
  rewrite <- (take_drop (Z.to_nat i) l) in Hnd, Hnotin.
  apply NoDup_app in Hnd as (Hnd1 & Hdisj & Hnd2).
  rewrite elem_of_app in Hnotin.
  apply NoDup_app. split_and!; [done| |].
  - intros x Hx [->|Hx']%elem_of_cons; [tauto|]. by apply (Hdisj x).
  - apply NoDup_cons. tauto.
Qed.

Lemma length_QList_insert i key l :
  length (QList_insert i key l) = S (length l).
Proof.
  rewrite QList_insert_eq. rewrite length_app. simpl.
  rewrite <- (take_drop (Z.to_nat i) l) at 3. rewrite length_app. lia.
Qed.

Lemma QList_removeOne_notin key l : key ∉ l → QList_removeOne key l = l.
Proof.
  induction l as [|x l IH]; [done|]. intros Hnotin.
  apply not_elem_of_cons in Hnotin as [Hne Hnotin]. simpl.
  destruct (decide (x = key)); [done|]. by rewrite IH.
Qed.

Lemma elem_of_QList_removeOne key l x :
  NoDup l → x ∈ QList_removeOne key l ↔ x ∈ l ∧ x ≠ key.
Proof.
  induction l as [|y l IH]; intros Hnd.
  - simpl. rewrite elem_of_nil. tauto.
  - apply NoDup_cons in Hnd as [Hy Hnd]. simpl.
    destruct (decide (y = key)) as [->|Hne].
    + rewrite elem_of_cons. split; [|tauto].
      intros Hx. split; [tauto|]. by intros ->.
    + rewrite !elem_of_cons, IH by done.
      split; [intros [->|?]; tauto|tauto].
Qed.

Lemma NoDup_QList_removeOne key l :
  NoDup l → NoDup (QList_removeOne key l).
Proof.
  induction l as [|y l IH]; [done|]. intros Hnd.
  pose proof Hnd as [Hy Hnd']%NoDup_cons. simpl.
  destruct (decide (y = key)); [done|].
  apply NoDup_cons. split; [|by apply IH].
  rewrite elem_of_QList_removeOne by done. tauto.
Qed.

Lemma length_QList_removeOne key l :
  key ∈ l → S (length (QList_removeOne key l)) = length l.
Proof.
  induction l as [|y l IH]; [by intros ?%elem_of_nil|].
  intros Hin. simpl. destruct (decide (y = key)) as [->|Hne]; [done|].
  apply elem_of_cons in Hin as [->|Hin]; [done|].
  simpl. by rewrite IH.
Qed.

Lemma QList_indexOf_from_app pre key post from :
  key ∉ pre →
  QList_indexOf_from (pre ++ key :: post) key from =
    from + Z.of_nat (length pre).
Proof.
  revert from. induction pre as [|x pre IH]; intros from Hnotin; simpl.
  - destruct (decide (key = key)); [lia|done].
  - apply not_elem_of_cons in Hnotin as [Hne Hnotin].
    destruct (decide (x = key)); [congruence|].
    rewrite IH by done. lia.
Qed.

Lemma QList_indexOf_middle pre key post :
  key ∉ pre → QList_indexOf (pre ++ key :: post) key = Z.of_nat (length pre).
Proof.
  intros. unfold QList_indexOf. by rewrite QList_indexOf_from_app.
Qed.

Lemma QList_at_ok l (i : nat) key :
  l !! i = Some key → QList_at l (Z.of_nat i) = Ok key.
Proof.
  intros Hi. pose proof (lookup_lt_Some _ _ _ Hi).
  unfold QList_at, QList_size.
  destruct (Z.leb_spec 0 (Z.of_nat i)); [|lia].
  destruct (Z.ltb_spec (Z.of_nat i) (Z.of_nat (length l))); [|lia].
  simpl. by rewrite Nat2Z.id, Hi.
Qed.

Lemma QHash_contains_true h key :
  QHash_contains h key = true ↔ is_Some (h !! key).
Proof. unfold QHash_contains. by rewrite bool_decide_eq_true. Qed.

Lemma QHash_contains_false h key :
  QHash_contains h key = false ↔ h !! key = None.
Proof.
  unfold QHash_contains.
  by rewrite bool_decide_eq_false, eq_None_not_Some.
Qed.

Lemma delete_QList_removeOne l (n : nat) key :
  NoDup l → l !! n = Some key → delete n l = QList_removeOne key l.
Proof.
  revert n. induction l as [|x l IH]; intros n Hnd Hn; [done|].
  apply NoDup_cons in Hnd as [Hx Hnd].
  destruct n as [|n]; simpl in *.
  - injection Hn as ->. by destruct (decide (key = key)).
  - destruct (decide (x = key)) as [->|Hne].
    + exfalso. apply Hx. by eapply list_elem_of_lookup_2.
    + f_equal. by apply IH.
Qed.

(** *** The member functions, on a map in which the invariant holds *)

Lemma size_fits m : fits_int m → size m = QList_size (m_list m).
Proof.
  unfold fits_int, size, QList_size. intros.
  apply to_size_t_small. pose proof two_INT_MAX_le_SIZE_MAX. lia.
Qed.

Lemma bijection_removeOne m key :
  bijection m →
  (if QHash_contains (m_hash m) key
   then QList_removeOne key (m_list m) else m_list m)
  = QList_removeOne key (m_list m).
Proof.
  intros [Hnd Hkeys].
  destruct (QHash_contains _ _) eqn:E; [done|].
  apply QHash_contains_false in E. symmetry.
  apply QList_removeOne_notin. rewrite Hkeys, E. by intros [? ?].
Qed.

Lemma insert_spec idx key val m :
  bijection m →
  insert idx key val m =
    (Ok tt,
     if (idx <=? QList_size (m_list m)) && (idx >=? 0) then
       mkLinkedHash (<[key := val]> (m_hash m))
                    (QList_insert idx key (QList_removeOne key (m_list m)))
     else m).
Proof.
  intros Hb. unfold insert. run.
  destruct ((idx <=? _) && (idx >=? 0)); [|done].
  rewrite <- (bijection_removeOne m key Hb).
  by destruct (QHash_contains _ _).
Qed.

Lemma append_insert key val m :
  append key val m = insert (to_int (size m)) key val m.
Proof. reflexivity. Qed.

Lemma remove_spec key m :
  bijection m →
  remove key m =
    (Ok tt, mkLinkedHash (delete key (m_hash m))
                         (QList_removeOne key (m_list m))).
Proof.
  intros Hb. unfold remove. run.
  destruct (QHash_contains _ _) eqn:E; [done|].
  apply QHash_contains_false in E.
  rewrite delete_id by done.
  rewrite QList_removeOne_notin; [by destruct m|].
  destruct Hb as [_ Hkeys]. rewrite Hkeys, E. by intros [? ?].
Qed.

Lemma removeAt_spec idx m :
  bijection m →
  removeAt idx m =
    (Ok tt,
     match m_list m !! Z.to_nat idx with
     | Some key =>
         if (idx <? QList_size (m_list m)) && (idx >=? 0) then
           mkLinkedHash (delete key (m_hash m))
                        (QList_removeOne key (m_list m))
         else m
     | None => m
     end).
Proof.
  intros [Hnd Hkeys]. unfold removeAt. run. unfold QList_removeAt, QList_at.
  destruct (Z.ltb_spec idx (QList_size (m_list m))) as [Hlt|Hge];
    destruct (Z.geb_spec idx 0) as [Hpos|Hneg]; simpl;
    try by destruct (m_list m !! Z.to_nat idx).
  destruct (Z.leb_spec 0 idx); [|lia]. simpl.
  destruct (m_list m !! Z.to_nat idx) as [key|] eqn:E; simpl.
  - destruct (Z.ltb_spec idx (QList_size (m_list m))); [|lia].
    by rewrite (delete_QList_removeOne _ _ key).
  - apply lookup_ge_None in E. unfold QList_size in *. lia.
Qed.

(** *** The invariant is established and kept *)

Lemma new_bijection : bijection (new (Key:=Key) (T:=T)).
Proof.
  split; simpl; [constructor|]. intros key.
  rewrite elem_of_nil, lookup_empty. split; [done|by intros [? ?]].
Qed.

Lemma bijection_insert i key val h l :
  bijection (mkLinkedHash h l) →
  bijection (mkLinkedHash (<[key := val]> h)
                          (QList_insert i key (QList_removeOne key l))).
Proof.
  intros [Hnd Hkeys]. simpl in *. split; simpl.
  - apply NoDup_QList_insert; [by apply NoDup_QList_removeOne|].
    rewrite elem_of_QList_removeOne by done. tauto.
  - intros x. rewrite elem_of_QList_insert, lookup_insert_is_Some.
    rewrite elem_of_QList_removeOne, Hkeys by done.
    destruct (decide (key = x)) as [->|]; split; intros; try tauto.
    + right. split; [done|]. by destruct H0 as [?|[? ?]].
    + destruct H0 as [?|[? ?]]; [by left|].
      right. split; [done|]. by intros ->.
Qed.

Lemma bijection_remove key h l :
  bijection (mkLinkedHash h l) →
  bijection (mkLinkedHash (delete key h) (QList_removeOne key l)).
Proof.
  intros [Hnd Hkeys]. simpl in *. split; simpl.
  - by apply NoDup_QList_removeOne.
  - intros x. rewrite elem_of_QList_removeOne, lookup_delete_is_Some by done.
    rewrite Hkeys. split; intros [? ?]; split; try done; by intros ->.
Qed.

Lemma run_op_bijection o m :
  bijection m → (run_op o m).1 = Ok tt ∧ bijection (run_op o m).2.
Proof.
  intros Hb. destruct o as [idx key val|key val|key|idx]; simpl.
  - rewrite insert_spec by done. split; [done|]. simpl.
    destruct (_ && _); [|done]. apply bijection_insert. by destruct m.
  - rewrite append_insert, insert_spec by done. split; [done|]. simpl.
    destruct (_ && _); [|done]. apply bijection_insert. by destruct m.
  - rewrite remove_spec by done. split; [done|]. simpl.
    apply bijection_remove. by destruct m.
  - rewrite removeAt_spec by done. split; [done|]. simpl.
    destruct (_ !! _); [|done]. destruct (_ && _); [|done].
    apply bijection_remove. by destruct m.
Qed.

Lemma run_ops_bijection os m :
  bijection m → (run_ops os m).1 = Ok tt ∧ bijection (run_ops os m).2.
Proof.
  revert m. induction os as [|o os IH]; intros m Hb; [done|].
  simpl. unfold bind.
  destruct (run_op_bijection o m Hb) as [Hr Hb'].
  destruct (run_op o m) as [r m1]. simpl in *. subst r. by apply IH.
Qed.

Lemma operator_key_present val key m :
  m_hash m !! key = Some val →
  operator_key T_default key m = (Ok val, m).
Proof.
  intros E. unfold operator_key. run.
  destruct (QHash_contains _ _) eqn:E'.
  - unfold QHash_value. by rewrite E.
  - apply QHash_contains_false in E'. congruence.
Qed.

Lemma operator_index_present (n : nat) key val m :
  m_list m !! n = Some key → m_hash m !! key = Some val →
  operator_index T_default (Z.of_nat n) m = (Ok val, m).
Proof.
  intros Hn Hk. pose proof (lookup_lt_Some _ _ _ Hn).
  unfold operator_index. run. unfold QList_size.
  destruct (Z.ltb_spec (Z.of_nat n) (Z.of_nat (length (m_list m)))); [|lia].
  destruct (Z.geb_spec (Z.of_nat n) 0); [|lia]. simpl.
  rewrite (QList_at_ok _ _ key) by done. simpl.
  unfold QHash_value. by rewrite Hk.
Qed.

(** The list after [insert] has moved or added [key], for an index within
    the list as it is once [key] is taken out. *)
Lemma moved_key_position idx key l :
  NoDup l → 0 ≤ idx ≤ QList_size (QList_removeOne key l) →
  QList_insert idx key (QList_removeOne key l) !! Z.to_nat idx = Some key ∧
  QList_indexOf (QList_insert idx key (QList_removeOne key l)) key = idx.
Proof.
  intros Hnd Hidx. unfold QList_size in Hidx.
  rewrite QList_insert_eq.
  set (l1 := QList_removeOne key l) in *.
  assert (key ∉ l1) as Hnotin.
  { unfold l1. rewrite elem_of_QList_removeOne by done. tauto. }
  assert (length (take (Z.to_nat idx) l1) = Z.to_nat idx) as Hlen.
  { rewrite length_take. lia. }
  split.
  - rewrite lookup_app_r by lia. by rewrite Hlen, Nat.sub_diag.
  - rewrite QList_indexOf_middle.
    + rewrite Hlen. lia.
    + intros Hin. apply Hnotin.
      rewrite <- (take_drop (Z.to_nat idx) l1). apply elem_of_app. by left.
Qed.

(** *** The properties the specification states *)

(** C1. Starting from the empty map, in every sequence of [insert],
    [append], [remove] and [removeAt] calls, after each call (that is,
    after the first [k] calls, for every [k]) every key of the order list
    occurs in it once, and the order list and the hash hold the same
    keys. *)
Theorem order_and_index_stay_bijective (os : list (op Key T)) (k : nat) :
  ∃ m, run_ops (take k os) new = (Ok tt, m) ∧ bijection m.
Proof.
  destruct (run_ops_bijection (take k os) new new_bijection) as [Hr Hb].
  destruct (run_ops (take k os) new) as [r m]. simpl in *. subst r.
  by exists m.
Qed.

(** C3. After [append(key, val)], whether or not the key was present,
    the key reads [val], its index is [size() - 1], and the call does what
    [insert(size(), key, val)] does. *)
Theorem append_puts_key_last m key val :
  bijection m → fits_int m →
  ∃ m',
    append key val m = (Ok tt, m') ∧
    operator_key T_default key m' = (Ok val, m') ∧
    indexOf m' key = size m' - 1 ∧
    append key val m = insert (size m) key val m.
Proof.
  intros Hb Hfit. pose proof Hb as [Hnd Hkeys].
  pose proof (size_fits m Hfit) as Hsize. unfold fits_int in Hfit.
  pose proof INT_MAX_pos.
  assert (to_int (size m) = size m) as Hint.
  { apply to_int_small. rewrite Hsize. unfold QList_size in *. lia. }
  rewrite append_insert, Hint. rewrite insert_spec by done.
  rewrite Hsize.
  destruct (Z.leb_spec (QList_size (m_list m)) (QList_size (m_list m)));
    [|lia].
  destruct (Z.geb_spec (QList_size (m_list m)) 0);
    [|unfold QList_size in *; lia]. simpl.
  eexists. split; [done|]. split_and!; [| |done].
  - apply operator_key_present. simpl. apply lookup_insert_eq.
  - set (l1 := QList_removeOne key (m_list m)).
    assert (length l1 ≤ length (m_list m))%nat as Hle.
    { destruct (decide (key ∈ m_list m)) as [Hin|Hnotin].
      - pose proof (length_QList_removeOne _ _ Hin). unfold l1. lia.
      - unfold l1. by rewrite QList_removeOne_notin. }
    assert (key ∉ l1) as Hnotin.
    { unfold l1. rewrite elem_of_QList_removeOne by done. tauto. }
    unfold indexOf, size. simpl.
    rewrite QList_insert_eq. unfold QList_size.
    rewrite take_ge, drop_ge by lia.
    rewrite QList_indexOf_middle by done.
    rewrite length_app. simpl.
    rewrite to_size_t_small; [lia|].
    pose proof two_INT_MAX_le_SIZE_MAX. unfold QList_size in *. lia.
Qed.

(** C4, as the code has it. [insert(idx, key, val)] with a key that is
    present elsewhere leaves [size()] as it was. For [idx < size()] the
    key is then at [idx] and reads [val] there. For [idx = size()] the key
    is moved to the last position, [size() - 1], and position [idx] is
    outside the map. *)
Theorem insert_moves_existing_key m (idx : Z) key val :
  bijection m → fits_int m →
  0 ≤ idx ≤ size m → key ∈ m_list m → indexOf m key ≠ idx →
  ∃ m',
    insert idx key val m = (Ok tt, m') ∧
    size m' = size m ∧
    (idx < size m →
       operator_index T_default idx m' = (Ok val, m') ∧
       indexOf m' key = idx) ∧
    (idx = size m →
       operator_index T_default (size m - 1) m' = (Ok val, m') ∧
       indexOf m' key = size m - 1 ∧
       operator_index T_default idx m' = (Ok T_default, m')).
Proof.
  intros Hb Hfit Hidx Hin _. pose proof Hb as [Hnd Hkeys].
  pose proof (size_fits m Hfit) as Hsize. rewrite Hsize in *.
  pose proof (length_QList_removeOne _ _ Hin) as Hlen.
  rewrite insert_spec by done.
  destruct (Z.leb_spec idx (QList_size (m_list m))); [|lia].
  destruct (Z.geb_spec idx 0); [|lia]. simpl.
  set (l1 := QList_removeOne key (m_list m)) in *.
  set (m' := mkLinkedHash _ _).
  assert (size m' = QList_size (m_list m)) as Hsize'.
  { rewrite size_fits; unfold fits_int, m', QList_size in *; simpl;
      rewrite length_QList_insert; lia. }
  assert (m_hash m' !! key = Some val) as Hval by apply lookup_insert_eq.
  exists m'. split; [done|]. split; [done|].
  split.
  - intros Hlt.
    destruct (moved_key_position idx key (m_list m) Hnd) as [Hat Hpos].
    { unfold QList_size in *. fold l1. lia. }
    split; [|done].
    rewrite <- (Z2Nat.id idx) at 1 by lia.
    by apply (operator_index_present _ key).
  - intros ->.
    destruct (moved_key_position (QList_size (m_list m) - 1) key
                (m_list m) Hnd) as [Hat Hpos].
    { unfold QList_size in *. fold l1. lia. }
    assert (QList_insert (QList_size (m_list m)) key l1 =
            QList_insert (QList_size (m_list m) - 1) key l1) as Hclamp.
    { rewrite !QList_insert_eq. unfold QList_size.
      rewrite !take_ge, !drop_ge by lia. done. }
    fold l1 in Hat, Hpos. rewrite <- Hclamp in Hat, Hpos.
    split_and!; [|done|].
    + rewrite <- (Z2Nat.id (_ - 1)) at 1 by (unfold QList_size in *; lia).
      by apply (operator_index_present _ key).
    + unfold operator_index. run. unfold QList_size at 1 2.
      rewrite length_QList_insert.
      destruct (Z.ltb_spec (Z.of_nat (length (m_list m)))
                           (Z.of_nat (S (length l1)))); [lia|done].
Qed.

(** C8. Positional access outside [0, size()) and access by an absent
    key both return a default-constructed value, without an error, and
    leave the map as it was. *)
Theorem accessors_soft_fail m (idx : Z) key :
  fits_int m →
  (¬ (0 ≤ idx < size m) →
     operator_index T_default idx m = (Ok T_default, m)) ∧
  (m_hash m !! key = None →
     operator_key T_default key m = (Ok T_default, m)).
Proof.
  intros Hfit. rewrite (size_fits m Hfit). split.
  - intros Hout. unfold operator_index. run.
    destruct (Z.ltb_spec idx (QList_size (m_list m)));
      destruct (Z.geb_spec idx 0); simpl; done || lia.
  - intros Habs. unfold operator_key. run.
    apply QHash_contains_false in Habs. by rewrite Habs.
Qed.

End Facts.
End LinkedHashFacts.

(** ** The statements on the sample objects *)

Module CircularBufferExamples.
Import CInt CircularBuffer CircularBufferFacts Samples.

Ltac wf_sample :=
  split; unfold capacity, QVector_size, INT_MAX; simpl; lia.

Lemma fresh3_wf : wf fresh3.
Proof. wf_sample. Qed.

Lemma abc3_wf : wf abc3.
Proof. wf_sample. Qed.

Lemma bcd3_wf : wf bcd3.
Proof. wf_sample. Qed.

(** The specification's example: capacity 3; push A, B, C, D; the
    contents are B, C, D; [front(2)] is B, C; [back(1)] is D. *)
Example push_four_into_three :
  new 0 3 = Ok fresh3 ∧
  push_all [1; 2; 3] fresh3 = (Ok tt, abc3) ∧
  push_all [1; 2; 3; 4] fresh3 = (Ok tt, bcd3) ∧
  front 0 n_default bcd3 = (Ok [2; 3; 4], bcd3) ∧
  front 0 2 bcd3 = (Ok [2; 3], bcd3) ∧
  back 0 1 bcd3 = (Ok [4], bcd3).
Proof. by vm_compute. Qed.

Lemma push_back_keeps_last_capacity_witness :
  wf fresh3 ∧ capacity fresh3 ≤ Z.of_nat (length [1; 2; 3; 4]) ∧
  ∃ b',
    push_all [1; 2; 3; 4] fresh3 = (Ok tt, b') ∧
    size b' = capacity fresh3 ∧
    ∀ i, 0 ≤ i < capacity fresh3 →
      operator_index 0 i b' =
        (Ok (nth (Z.to_nat (Z.of_nat (length [1; 2; 3; 4])
                            - capacity fresh3 + i))
                 [1; 2; 3; 4] 0), b').
Proof.
  split; [wf_sample|]. split; [by vm_compute|].
  apply (push_back_keeps_last_capacity 0 fresh3 [1; 2; 3; 4]);
    [wf_sample|by vm_compute].
Defined.

(** C5 as stated fails at [k = 0] on the buffer holding 1, 2, 3:
    [front(0)] and [back(3)] both return 1, 2, 3. *)
Lemma front_back_split_counterexample :
  wf abc3 ∧ 0 ≤ 0 ≤ size abc3 ∧
  front 0 0 abc3 = (Ok [1; 2; 3], abc3) ∧
  back 0 (size abc3 - 0) abc3 = (Ok [1; 2; 3], abc3) ∧
  front 0 n_default abc3 = (Ok [1; 2; 3], abc3) ∧
  ¬ front_back_reconstruct 0 abc3 0.
Proof.
  split; [wf_sample|]. split; [by vm_compute|].
  split_and!; [by vm_compute..|].
  intros (xs & ys & Hf & Hb & Hall).
  vm_compute in Hf, Hb. injection Hf as <-. injection Hb as <-.
  vm_compute in Hall. discriminate Hall.
Qed.

Lemma front_back_split_witness :
  wf bcd3 ∧ 0 < 2 < size bcd3 ∧
  front_back_reconstruct 0 bcd3 2 ∧
  ∃ xs ys, front 0 2 bcd3 = (Ok xs, bcd3) ∧
           back 0 (size bcd3 - 2) bcd3 = (Ok ys, bcd3) ∧
           xs ++ ys = contents 0 bcd3.
Proof.
  split; [wf_sample|]. split; [by vm_compute|].
  apply (front_back_split 0 bcd3 2); [wf_sample|by vm_compute].
Defined.

Lemma remove_front_push_back_on_full_witness :
  wf bcd3 ∧ 0 < capacity bcd3 ∧ isFull bcd3 = true ∧
  ∃ b',
    push_back 5 bcd3 = (Ok tt, b') ∧
    (remove_front ;;; push_back 5) bcd3 = (Ok tt, b') ∧
    front 0 n_default b' = (Ok (drop 1 (contents 0 bcd3) ++ [5]), b').
Proof.
  split; [wf_sample|]. split; [by vm_compute|]. split; [reflexivity|].
  apply (remove_front_push_back_on_full 0 bcd3 5);
    [wf_sample|by vm_compute|reflexivity].
Defined.

Lemma positional_access_hard_fail_witness :
  wf bcd3 ∧ 0 ≤ 2 ≤ SIZE_MAX ∧
  ((operator_index 0 2 bcd3).1 = Err out_of_range ↔ size bcd3 ≤ 2) ∧
  ((operator_index_assign 2 9 bcd3).1 = Err out_of_range ↔ size bcd3 ≤ 2) ∧
  (2 < size bcd3 →
     operator_index 0 2 bcd3 =
       (Ok (nth (Z.to_nat ((m_start bcd3 + 2) mod capacity bcd3))
                (m_buffer bcd3) 0), bcd3) ∧
     operator_index_assign 2 9 bcd3 =
       (Ok tt, mkBuffer (<[Z.to_nat ((m_start bcd3 + 2) mod capacity bcd3) := 9]>
                           (m_buffer bcd3))
                        (m_start bcd3) (m_size bcd3))) ∧
  (size bcd3 ≤ 2 →
     (operator_index 0 2 bcd3).2 = bcd3 ∧
     (operator_index_assign 2 9 bcd3).2 = bcd3).
Proof.
  split; [wf_sample|]. split; [by vm_compute|].
  apply (positional_access_hard_fail 0 bcd3 2 9);
    [wf_sample|by vm_compute].
Defined.

Lemma remainder_never_by_zero_witness :
  new 0 3 = Ok fresh3 ∧
  run_ops calls fresh3 = (Ok tt, bcd3) ∧
  Ok tt = Ok tt ∧
  ∀ idx val,
    (operator_index 0 (to_size_t idx) bcd3).1 ≠ Err division_by_zero ∧
    (operator_index_assign (to_size_t idx) val bcd3).1
      ≠ Err division_by_zero ∧
    (remove_front bcd3).1 ≠ Err division_by_zero ∧
    (push_back val bcd3).1 ≠ Err division_by_zero.
Proof.
  split; [reflexivity|]. split; [reflexivity|].
  apply (remainder_never_by_zero 0 3 calls fresh3 (Ok tt) bcd3);
    reflexivity.
Defined.

End CircularBufferExamples.

Module LinkedHashExamples.
Import CInt LinkedHash LinkedHashFacts Samples.

Lemma xy_bijection : bijection xy.
Proof. apply run_ops_bijection, new_bijection. Qed.

Lemma xy_fits_int : fits_int xy.
Proof. by vm_compute. Qed.

(** The specification's example: [append("x", 1)], [append("y", 2)],
    [insert(0, "y", 9)] give the order y, x, with y reading 9 and x
    reading 1, and [size()] 2. *)
Example append_append_insert :
  m_list xy = ["x"; "y"]%string ∧
  (insert 0 "y"%string 9 xy).1 = Ok tt ∧
  m_list (insert 0 "y"%string 9 xy).2 = ["y"; "x"]%string ∧
  (operator_key 0 "y"%string (insert 0 "y"%string 9 xy).2).1 = Ok 9 ∧
  (operator_key 0 "x"%string (insert 0 "y"%string 9 xy).2).1 = Ok 1 ∧
  size (insert 0 "y"%string 9 xy).2 = 2.
Proof. by vm_compute. Qed.

Lemma append_puts_key_last_witness :
  bijection xy ∧ fits_int xy ∧
  ∃ m',
    append "x"%string 7 xy = (Ok tt, m') ∧
    operator_key 0 "x"%string m' = (Ok 7, m') ∧
    indexOf m' "x"%string = size m' - 1 ∧
    append "x"%string 7 xy = insert (size xy) "x"%string 7 xy.
Proof.
  split; [apply xy_bijection|]. split; [by vm_compute|].
  apply (append_puts_key_last 0 xy "x"%string 7);
    [apply xy_bijection|by vm_compute].
Defined.

(** C4 as stated fails at [idx = size()]: in the map with the order x, y,
    [insert(2, "x", 9)] leaves x at index 1, and position 2 is outside the
    map. *)
Lemma insert_moves_existing_key_counterexample :
  bijection xy ∧ 0 ≤ 2 ≤ size xy ∧
  "x"%string ∈ m_list xy ∧ indexOf xy "x"%string = 0 ∧
  (insert 2 "x"%string 9 xy).1 = Ok tt ∧
  m_list (insert 2 "x"%string 9 xy).2 = ["y"; "x"]%string ∧
  indexOf (insert 2 "x"%string 9 xy).2 "x"%string = 1 ∧
  (operator_index 0 2 (insert 2 "x"%string 9 xy).2).1 = Ok 0 ∧
  ¬ (size (insert 2 "x"%string 9 xy).2 = size xy ∧
     (operator_index 0 2 (insert 2 "x"%string 9 xy).2).1 = Ok 9 ∧
     indexOf (insert 2 "x"%string 9 xy).2 "x"%string = 2).
Proof.
  split; [apply xy_bijection|]. split; [by vm_compute|].
  split; [by left|]. split_and!; [by vm_compute..|].
  intros (_ & _ & Hidx). vm_compute in Hidx. discriminate Hidx.
Qed.

Lemma insert_moves_existing_key_witness :
  bijection xy ∧ fits_int xy ∧ 0 ≤ 0 ≤ size xy ∧
  "y"%string ∈ m_list xy ∧ indexOf xy "y"%string ≠ 0 ∧
  ∃ m',
    insert 0 "y"%string 9 xy = (Ok tt, m') ∧
    size m' = size xy ∧
    (0 < size xy →
       operator_index 0 0 m' = (Ok 9, m') ∧
       indexOf m' "y"%string = 0) ∧
    (0 = size xy →
       operator_index 0 (size xy - 1) m' = (Ok 9, m') ∧
       indexOf m' "y"%string = size xy - 1 ∧
       operator_index 0 0 m' = (Ok 0, m')).
Proof.
  split; [apply xy_bijection|]. split; [by vm_compute|].
  split; [by vm_compute|]. split; [right; by left|].
  split; [by vm_compute|].
  apply (insert_moves_existing_key 0 xy 0 "y"%string 9);
    [apply xy_bijection|by vm_compute|by vm_compute|right; by left
    |by vm_compute].
Defined.

Lemma accessors_soft_fail_witness :
  fits_int xy ∧
  (¬ (0 ≤ 2 < size xy) → operator_index 0 2 xy = (Ok 0, xy)) ∧
  (m_hash xy !! "z"%string = None →
     operator_key 0 "z"%string xy = (Ok 0, xy)).
Proof.
  split; [by vm_compute|].
  apply (accessors_soft_fail 0 xy 2 "z"%string). by vm_compute.
Defined.

End LinkedHashExamples.

(** * Further properties of the two containers *)

(** ** QCircularBuffer: what each member function does to the contents *)

Module CircularBufferLaws.
Import CInt CIntFacts CircularBuffer CircularBufferFacts.

Section Laws.
Context {T : Type} (T_default : T).
Implicit Types (b : QCircularBuffer T) (val : T) (l : list T).

Lemma contents_empty b : m_size b = 0 → contents T_default b = [].
Proof. intros E. unfold contents. by rewrite E. Qed.

Lemma size_of_contents b :
  wf b → m_size b = Z.of_nat (length (contents T_default b)).
Proof. intros [? ? ?]. rewrite length_contents. lia. Qed.

Lemma length_last_n (c : nat) l : length (last_n c l) = (length l `min` c)%nat.
Proof. unfold last_n. rewrite length_drop. lia. Qed.

Lemma take_seqZ (k : nat) (n : Z) :
  take k (seqZ 0 n) = seqZ 0 (Z.of_nat k `min` n).
Proof.
  destruct (Z.le_gt_cases n (Z.of_nat k)).
  - rewrite take_ge by (rewrite length_seqZ; lia). f_equal. lia.
  - destruct (Z.le_gt_cases n 0); [lia|].
    replace n with (Z.of_nat k + (n - Z.of_nat k)) at 1 by lia.
    rewrite seqZ_app by lia.
    rewrite take_app_length' by (rewrite length_seqZ; lia).
    f_equal. lia.
Qed.

Lemma drop_seqZ (k : nat) (n : Z) :
  Z.of_nat k ≤ n → drop k (seqZ 0 n) = seqZ (Z.of_nat k) (n - Z.of_nat k).
Proof.
  intros Hk. replace n with (Z.of_nat k + (n - Z.of_nat k)) at 1 by lia.
  rewrite seqZ_app by lia.
  by rewrite drop_app_length' by (rewrite length_seqZ; lia).
Qed.

Lemma contents_remove_front b :
  wf b → 0 < m_size b →
  contents T_default (mkBuffer (m_buffer b) (physical b 1) (m_size b - 1))
  = drop 1 (contents T_default b).
Proof.
  intros Hwf Hpos. pose proof Hwf as [Hc Hs Hst].
  set (b' := mkBuffer _ _ _).
  assert (∀ i, slot_value T_default b' i = slot_value T_default b (1 + i))
    as Hslot.
  { intros i. unfold slot_value. f_equal. f_equal.
    unfold physical at 1, capacity at 1. simpl. fold (capacity b).
    apply physical_shift. lia. }
  unfold contents. change (m_size b') with (m_size b - 1).
  rewrite <- fmap_drop, (drop_seqZ 1) by lia.
  rewrite <- (fmap_add_seqZ 1 0), <- list_fmap_compose.
  apply list_fmap_ext. intros k i _. apply Hslot.
Qed.

Lemma contents_assign b (idx : Z) val :
  wf b → 0 ≤ idx < m_size b →
  contents T_default
    (mkBuffer (<[Z.to_nat (physical b idx) := val]> (m_buffer b))
              (m_start b) (m_size b))
  = <[Z.to_nat idx := val]> (contents T_default b).
Proof.
  intros Hwf Hidx. pose proof Hwf as [Hc Hs Hst].
  set (b' := mkBuffer _ _ _) in *.
  assert (capacity b' = capacity b) as Hcap.
  { unfold capacity, QVector_size. simpl. by rewrite length_insert. }
  assert (∀ i, physical b' i = physical b i) as Hph.
  { intros i. unfold physical. by rewrite Hcap. }
  assert (0 < capacity b) as Hpos by lia.
  pose proof (physical_range b idx Hpos) as Hr.
  assert (slot_value T_default b' idx = val) as Hsame.
  { unfold slot_value. rewrite Hph. simpl. apply nth_insert_eq.
    unfold capacity, QVector_size in *. lia. }
  assert (∀ i, 0 ≤ i < m_size b → i ≠ idx →
               slot_value T_default b' i = slot_value T_default b i)
    as Hother.
  { intros i Hi Hne. unfold slot_value. rewrite Hph. simpl.
    pose proof (physical_range b i Hpos).
    apply nth_insert_ne. intros E. apply Z2Nat.inj in E; [|lia..].
    apply mod_add_inj in E; lia. }
  apply list_eq. intros k. unfold contents.
  change (m_size b') with (m_size b).
  destruct (decide (k = Z.to_nat idx)) as [->|Hne].
  - rewrite list_lookup_insert_eq
      by (rewrite length_fmap, length_seqZ; lia).
    rewrite list_lookup_fmap, lookup_seqZ_lt by lia. simpl.
    f_equal. rewrite <- Hsame. f_equal. lia.
  - rewrite list_lookup_insert_ne by done.
    rewrite !list_lookup_fmap.
    destruct (seqZ 0 (m_size b) !! k) as [i|] eqn:E; [|done]. simpl.
    apply lookup_seqZ in E as [-> Hk]. f_equal. apply Hother; lia.
Qed.

(** X1. [push_back] on a well-formed buffer returns, keeps the capacity,
    and leaves as contents the last [capacity] elements of the old contents
    followed by [val]: the element is appended, and the oldest one is
    dropped when the buffer was full. [size()] grows by one up to the
    capacity. *)
Theorem push_back_appends_and_evicts b val :
  wf b →
  ∃ b',
    push_back val b = (Ok tt, b') ∧
    capacity b' = capacity b ∧
    size b' = Z.min (size b + 1) (capacity b) ∧
    contents T_default b' =
      last_n (Z.to_nat (capacity b)) (contents T_default b ++ [val]).
Proof.
  intros Hwf. pose proof Hwf as [Hc Hs Hst].
  destruct (push_back_spec T_default b val Hwf)
    as (b' & Hrun & Hwf' & Hcap & Hcont).
  exists b'. split_and!; [done..| |done].
  unfold size. rewrite (size_of_contents b'), (size_of_contents b) by done.
  rewrite Hcont, length_last_n, length_app. simpl.
  rewrite (size_of_contents b) in Hs by done. lia.
Qed.

(** X2. [remove_front] on a well-formed buffer returns, keeps the capacity
    and drops the first element of the contents; on an empty buffer it
    changes nothing. *)
Theorem remove_front_drops_oldest b :
  wf b →
  ∃ b',
    remove_front b = (Ok tt, b') ∧
    capacity b' = capacity b ∧
    size b' = Z.max (size b - 1) 0 ∧
    contents T_default b' = drop 1 (contents T_default b) ∧
    (size b = 0 → b' = b).
Proof.
  intros Hwf. pose proof Hwf as [Hc Hs Hst]. unfold size.
  destruct (Z.eq_dec (m_size b) 0) as [E|Hne].
  - rewrite remove_front_empty by done. exists b.
    split_and!; [done|done|lia| |done].
    by rewrite contents_empty.
  - rewrite remove_front_nonempty by (done || lia).
    eexists. split_and!; [done|done|simpl; lia| |lia].
    apply contents_remove_front; [done|lia].
Qed.

(** X3. [clear] empties the buffer without touching the vector, and what
    the vector still holds never comes back: after [clear], pushing [vals]
    leaves exactly the last [capacity] elements of [vals]. *)
Theorem clear_forgets_contents b (vals : list T) :
  wf b →
  ∃ b0 b',
    clear b = (Ok tt, b0) ∧
    m_buffer b0 = m_buffer b ∧ size b0 = 0 ∧ isEmpty b0 = true ∧
    front T_default n_default b0 = (Ok [], b0) ∧
    push_all vals b0 = (Ok tt, b') ∧
    capacity b' = capacity b ∧
    contents T_default b' = last_n (Z.to_nat (capacity b)) vals.
Proof.
  intros Hwf. pose proof (clear_wf b Hwf) as Hwf0.
  rewrite clear_spec in *. simpl in Hwf0.
  set (b0 := mkBuffer _ _ _) in *.
  destruct (push_all_spec T_default vals b0 Hwf0)
    as (b' & Hrun & Hwf' & Hcap & Hcont).
  exists b0, b'. by split_and!.
Qed.

(** X4. On a well-formed buffer [front(n)] and [back(n)] return without
    an error and leave the object as it is. For [n >= 1] they return the
    first, respectively the last, [min(n, size())] elements of the contents,
    in order; for [n = 0] and for the omitted argument, all of them. *)
Theorem front_back_are_prefix_and_suffix b (n : Z) :
  wf b → 0 ≤ n ≤ SIZE_MAX →
  (0 < n →
     front T_default n b =
       (Ok (take (Z.to_nat n) (contents T_default b)), b) ∧
     back T_default n b =
       (Ok (last_n (Z.to_nat n) (contents T_default b)), b)) ∧
  (n = 0 ∨ n = n_default →
     front T_default n b = (Ok (contents T_default b), b) ∧
     back T_default n b = (Ok (contents T_default b), b)).
Proof.
  intros Hwf Hn. pose proof Hwf as [Hc Hs Hst].
  rewrite front_spec, back_spec by done.
  pose proof two_INT_MAX_le_SIZE_MAX.
  split.
  - intros Hpos.
    assert (clamp_count n (m_size b) = Z.min n (m_size b)) as ->.
    { unfold clamp_count. destruct (Z.leb_spec n 0); lia. }
    split; do 2 f_equal.
    + unfold contents. rewrite <- fmap_take, take_seqZ. do 2 f_equal. lia.
    + unfold last_n, contents. rewrite <- fmap_drop, length_fmap, length_seqZ.
      rewrite drop_seqZ by lia. do 2 f_equal; lia.
  - intros Hall.
    assert (clamp_count n (m_size b) = m_size b) as ->.
    { destruct Hall as [->| ->]; [done|].
      unfold clamp_count, n_default, to_size_t, INT_MAX in *.
      change ((-1) `mod` 2 ^ 64) with (2 ^ 64 - 1). simpl. lia. }
    by rewrite Z.sub_diag.
Qed.

(** X5. An assignment through [operator[]] at an index below [size()]
    replaces that element of the contents and no other, keeps [size()],
    and is read back by [operator[]] at the same index. *)
Theorem assign_then_read b (idx : Z) val :
  wf b → 0 ≤ idx < size b →
  ∃ b',
    operator_index_assign idx val b = (Ok tt, b') ∧
    wf b' ∧ size b' = size b ∧ capacity b' = capacity b ∧
    contents T_default b' = <[Z.to_nat idx := val]> (contents T_default b) ∧
    operator_index T_default idx b' = (Ok val, b').
Proof.
  intros Hwf Hidx. pose proof Hwf as [Hc Hs Hst]. unfold size in *.
  pose proof (operator_index_assign_wf b idx val Hwf) as Hwf'.
  pose proof (contents_assign b idx val Hwf Hidx) as Hcont.
  rewrite operator_index_assign_ok in * by done. simpl in Hwf'.
  set (b' := mkBuffer _ _ _) in *.
  exists b'. split_and!; [done|done|done| |done|].
  - unfold capacity, QVector_size. simpl. by rewrite length_insert.
  - rewrite operator_index_ok by done.
    rewrite <- contents_nth by done. rewrite Hcont.
    rewrite nth_lookup, list_lookup_insert_eq; [done|].
    rewrite length_contents. lia.
Qed.

(** The capacity is fixed at construction. *)
Lemma run_op_capacity b (o : op T) :
  wf b → capacity (run_op o b).2 = capacity b.
Proof.
  intros Hwf. destruct o as [| |val|idx val]; simpl.
  - done.
  - destruct (Z.eq_dec (m_size b) 0).
    + by rewrite remove_front_empty.
    + destruct Hwf. by rewrite remove_front_nonempty by (done || lia).
  - destruct (push_back_spec T_default b val Hwf) as (b' & E & _ & Hcap & _).
    by rewrite E.
  - pose proof (Z.mod_pos_bound idx (2 ^ 64)).
    destruct (Z.le_gt_cases (m_size b) (to_size_t idx)).
    + by rewrite operator_index_assign_throw.
    + rewrite operator_index_assign_ok; [|done|unfold to_size_t in *; lia].
      unfold capacity, QVector_size. simpl. by rewrite length_insert.
Qed.

Lemma run_ops_capacity (os : list (op T)) b :
  wf b → capacity (run_ops os b).2 = capacity b.
Proof.
  revert b. induction os as [|o os IH]; intros b Hwf; [done|].
  simpl. unfold bind, catch_out_of_range.
  destruct (run_op_wf T_default b o Hwf) as [Hwf' Hr].
  pose proof (run_op_capacity b o Hwf) as Hcap.
  destruct (run_op o b) as [r b1]. simpl in *.
  destruct Hr as [->|[-> ->]]; rewrite IH by done; done.
Qed.

(** X6. A buffer constructed with a capacity [c] that an [int] holds has
    capacity [c], is empty, and under every sequence of calls keeps that
    capacity and a [size()] between 0 and it: the buffer never grows. *)
Theorem size_stays_within_capacity (c : Z) (os : list (op T)) :
  0 ≤ c ≤ INT_MAX →
  ∃ b0 b,
    new T_default c = Ok b0 ∧
    capacity b0 = c ∧ size b0 = 0 ∧
    run_ops os b0 = (Ok tt, b) ∧
    capacity b = c ∧ 0 ≤ size b ≤ c ∧
    length (contents T_default b) = Z.to_nat (size b).
Proof.
  intros Hc. pose proof (new_ok T_default c Hc) as Hnew.
  destruct (new_wf _ _ _ Hnew) as [Hwf0 Hs0].
  set (b0 := mkBuffer _ _ _) in *.
  assert (capacity b0 = c) as Hcap0.
  { unfold capacity, QVector_size. simpl. rewrite length_replicate. lia. }
  destruct (run_ops_wf T_default os b0 Hwf0) as [Hr Hwf].
  pose proof (run_ops_capacity os b0 Hwf0) as Hcap.
  destruct (run_ops os b0) as [r b] eqn:Hrun. simpl in *. subst r.
  exists b0, b. destruct Hwf as [? ? ?]. unfold size.
  split_and!; try done; try lia. apply length_contents.
Qed.

Lemma run_op_queue b (o : op T) :
  wf b →
  contents T_default (catch_out_of_range (run_op o) b).2 =
    queue_op (Z.to_nat (capacity b)) o (contents T_default b).
Proof.
  intros Hwf. pose proof Hwf as [Hc Hs Hst]. unfold catch_out_of_range.
  destruct o as [| |val|idx val]; simpl.
  - done.
  - destruct (Z.eq_dec (m_size b) 0) as [E|].
    + rewrite remove_front_empty by done. simpl.
      by rewrite contents_empty.
    + rewrite remove_front_nonempty by (done || lia). simpl.
      apply contents_remove_front; [done|lia].
  - destruct (push_back_spec T_default b val Hwf) as (b' & E & _ & _ & Hcont).
    by rewrite E.
  - pose proof (Z.mod_pos_bound idx (2 ^ 64)).
    destruct (Z.le_gt_cases (m_size b) (to_size_t idx)).
    + rewrite operator_index_assign_throw by done. simpl.
      rewrite length_contents.
      by destruct (Z.ltb_spec (to_size_t idx)
                              (Z.of_nat (Z.to_nat (m_size b)))); [lia|].
    + rewrite operator_index_assign_ok; [|done|unfold to_size_t in *; lia].
      simpl. rewrite length_contents.
      destruct (Z.ltb_spec (to_size_t idx)
                           (Z.of_nat (Z.to_nat (m_size b)))); [|lia].
      apply contents_assign; [done|]. unfold to_size_t in *. lia.
Qed.

Lemma run_ops_queue (os : list (op T)) b :
  wf b →
  contents T_default (run_ops os b).2 =
    foldl (λ q o, queue_op (Z.to_nat (capacity b)) o q)
          (contents T_default b) os.
Proof.
  revert b. induction os as [|o os IH]; intros b Hwf; [done|].
  simpl. unfold bind.
  pose proof (run_op_queue b o Hwf) as Hq.
  pose proof (run_op_capacity b o Hwf) as Hcap.
  destruct (run_op_wf T_default b o Hwf) as [Hwf' Hr].
  unfold catch_out_of_range in *.
  destruct (run_op o b) as [r b1]. simpl in *.
  destruct Hr as [->|[-> ->]]; simpl in *;
    rewrite IH by done; by rewrite <- Hq, ?Hcap.
Qed.

(** X20. A constructed buffer is a bounded queue: after every sequence of
    calls its contents are what the same sequence gives on a list, where
    [clear] empties the list, [remove_front] drops its first element,
    [push_back] appends and keeps the last [capacity] elements, and an
    assignment replaces the element at an index of the list and does
    nothing elsewhere. *)
Theorem contents_follow_queue (c : Z) (os : list (op T)) :
  0 ≤ c ≤ INT_MAX →
  ∃ b0 b,
    new T_default c = Ok b0 ∧
    run_ops os b0 = (Ok tt, b) ∧
    front T_default n_default b =
      (Ok (foldl (λ q o, queue_op (Z.to_nat c) o q) [] os), b).
Proof.
  intros Hc. pose proof (new_ok T_default c Hc) as Hnew.
  destruct (new_wf _ _ _ Hnew) as [Hwf0 Hs0].
  set (b0 := mkBuffer _ _ _) in *.
  assert (capacity b0 = c) as Hcap0.
  { unfold capacity, QVector_size. simpl. rewrite length_replicate. lia. }
  destruct (run_ops_wf T_default os b0 Hwf0) as [Hr Hwf].
  pose proof (run_ops_queue os b0 Hwf0) as Hq.
  destruct (run_ops os b0) as [r b] eqn:Hrun. simpl in *. subst r.
  exists b0, b. split_and!; [done..|].
  rewrite front_default_spec by done. by rewrite Hq, Hcap0.
Qed.

End Laws.
End CircularBufferLaws.

(** ** QLinkedHash: what each member function does to the order and to the
    values *)

Module LinkedHashLaws.
Import CInt CIntFacts LinkedHash LinkedHashFacts.

Section Laws.
Context {Key : Type} `{Countable Key} {T : Type} (T_default : T).
Implicit Types (m : QLinkedHash Key T) (l : list Key) (key : Key) (val : T).
Implicit Types (h : gmap Key T).

Ltac run := cbv [bind read lift ret throw write_hash write_list]; simpl.

(** *** QList: [indexOf] and [removeOne] *)

Lemma QList_indexOf_from_notin l key from :
  key ∉ l → QList_indexOf_from l key from = -1.
Proof.
  revert from. induction l as [|x l IH]; intros from Hnotin; [done|].
  apply not_elem_of_cons in Hnotin as [Hne Hnotin]. simpl.
  destruct (decide (x = key)); [congruence|]. by apply IH.
Qed.

Lemma QList_indexOf_found l key :
  key ∈ l →
  ∃ n : nat,
    l !! n = Some key ∧ (key ∉ take n l) ∧ QList_indexOf l key = Z.of_nat n.
Proof.
  intros (pre & post & -> & Hnotin)%list_elem_of_split_l.
  exists (length pre). split_and!.
  - by rewrite list_lookup_middle.
  - by rewrite take_app_length.
  - by apply QList_indexOf_middle.
Qed.

Lemma QList_indexOf_absent l key :
  QList_indexOf l key = -1 ↔ key ∉ l.
Proof.
  split.
  - intros E Hin. destruct (QList_indexOf_found l key Hin) as (n & _ & _ & E').
    lia.
  - apply QList_indexOf_from_notin.
Qed.

Lemma QList_removeOne_filter key l :
  NoDup l → QList_removeOne key l = filter (λ x, x ≠ key) l.
Proof.
  induction l as [|x l IH]; [done|]. intros [Hx Hnd]%NoDup_cons. simpl.
  destruct (decide (x = key)) as [->|Hne].
  - rewrite filter_cons_False by tauto. symmetry.
    rewrite <- (QList_removeOne_notin key l) at 2 by done.
    rewrite <- IH by done. by rewrite QList_removeOne_notin.
  - rewrite filter_cons_True by done. by rewrite IH.
Qed.

Lemma QList_removeOne_insert i key l :
  key ∉ l → QList_removeOne key (QList_insert i key l) = l.
Proof.
  intros Hnotin. rewrite QList_insert_eq.
  rewrite <- (take_drop (Z.to_nat i) l) in Hnotin.
  rewrite <- (take_drop (Z.to_nat i) l) at 3.
  apply not_elem_of_app in Hnotin as [Hpre _].
  induction (take (Z.to_nat i) l) as [|x pre IH]; simpl.
  - by destruct (decide (key = key)).
  - apply not_elem_of_cons in Hpre as [Hne Hpre].
    destruct (decide (x = key)); [congruence|]. by rewrite IH.
Qed.

Lemma QList_indexOf_from_shift l key from d :
  key ∈ l →
  QList_indexOf_from l key (from + d) = QList_indexOf_from l key from + d.
Proof.
  revert from. induction l as [|x l IH]; intros from Hin.
  - by apply elem_of_nil in Hin.
  - simpl. destruct (decide (x = key)); [done|].
    apply elem_of_cons in Hin as [->|Hin]; [done|].
    replace (from + d + 1) with (from + 1 + d) by lia. by apply IH.
Qed.

Lemma QList_indexOf_from_app_l pre rest key from :
  key ∈ pre →
  QList_indexOf_from (pre ++ rest) key from = QList_indexOf_from pre key from.
Proof.
  revert from. induction pre as [|x pre IH]; intros from Hin.
  - by apply elem_of_nil in Hin.
  - simpl. destruct (decide (x = key)); [done|].
    apply elem_of_cons in Hin as [->|Hin]; [done|]. by apply IH.
Qed.

Lemma QList_indexOf_from_app_r pre rest key from :
  key ∉ pre →
  QList_indexOf_from (pre ++ rest) key from =
    QList_indexOf_from rest key (from + Z.of_nat (length pre)).
Proof.
  revert from. induction pre as [|x pre IH]; intros from Hnotin; simpl.
  - f_equal. lia.
  - apply not_elem_of_cons in Hnotin as [Hne Hnotin].
    destruct (decide (x = key)); [congruence|].
    rewrite IH by done. f_equal. lia.
Qed.

Lemma QList_indexOf_lt_length l key :
  key ∈ l → 0 ≤ QList_indexOf l key < Z.of_nat (length l).
Proof.
  intros Hin. destruct (QList_indexOf_found l key Hin) as (n & Hn & _ & ->).
  apply lookup_lt_Some in Hn. lia.
Qed.

(** *** The member functions *)

Lemma bijection_absent m key :
  bijection m → m_hash m !! key = None → key ∉ m_list m.
Proof. intros [_ Hkeys] E. rewrite Hkeys, E. by intros [? ?]. Qed.

Lemma bijection_present m key :
  bijection m → is_Some (m_hash m !! key) → key ∈ m_list m.
Proof. intros [_ Hkeys] E. by rewrite Hkeys. Qed.

Lemma operator_key_value m key :
  operator_key T_default key m =
    (Ok (default T_default (m_hash m !! key)), m).
Proof.
  unfold operator_key. run. unfold QHash_value.
  destruct (QHash_contains _ _) eqn:E; [done|].
  apply QHash_contains_false in E. by rewrite E.
Qed.

(** X7. [remove] of a key that the hash does not hold changes nothing, in
    any state of the object. *)
Theorem remove_absent_changes_nothing m key :
  m_hash m !! key = None → remove key m = (Ok tt, m).
Proof.
  intros E. unfold remove. run.
  apply QHash_contains_false in E. by rewrite E.
Qed.

(** X8. [remove] of a key that is present takes it out of both members:
    [size()] goes down by one, the key reads the default value and has no
    index, the other keys keep their order and their values, and the
    invariant between the two members still holds. *)
Theorem remove_present_key m key :
  bijection m → fits_int m → is_Some (m_hash m !! key) →
  ∃ m',
    remove key m = (Ok tt, m') ∧
    bijection m' ∧
    size m' = size m - 1 ∧
    operator_key T_default key m' = (Ok T_default, m') ∧
    indexOf m' key = -1 ∧
    m_list m' = filter (λ x, x ≠ key) (m_list m) ∧
    ∀ key', key' ≠ key → m_hash m' !! key' = m_hash m !! key'.
Proof.
  intros Hb Hfit Hin. pose proof Hb as [Hnd Hkeys].
  pose proof (bijection_present m key Hb Hin) as Hl.
  pose proof (length_QList_removeOne _ _ Hl) as Hlen.
  rewrite remove_spec by done.
  set (m' := mkLinkedHash _ _).
  assert (bijection m') as Hb'.
  { apply bijection_remove. by destruct m. }
  exists m'. split_and!; [done|done| | | | |].
  - rewrite !size_fits; unfold fits_int, m', QList_size in *; simpl; lia.
  - rewrite operator_key_value. simpl. by rewrite lookup_delete_eq.
  - unfold indexOf. apply QList_indexOf_absent. simpl.
    rewrite elem_of_QList_removeOne by done. tauto.
  - simpl. by apply QList_removeOne_filter.
  - intros key' Hne. simpl. by rewrite lookup_delete_ne.
Qed.

(** X9. [removeAt] at a position of the map does what [remove] of the key
    at that position does; at any other position it changes nothing. *)
Theorem removeAt_removes_key_at_position m (idx : Z) :
  bijection m → fits_int m →
  (¬ (0 ≤ idx < size m) → removeAt idx m = (Ok tt, m)) ∧
  (0 ≤ idx < size m →
     ∃ key, m_list m !! Z.to_nat idx = Some key ∧
            removeAt idx m = remove key m).
Proof.
  intros Hb Hfit. rewrite (size_fits m Hfit).
  rewrite removeAt_spec by done. unfold QList_size. split.
  - intros Hout.
    destruct (m_list m !! Z.to_nat idx) as [key|]; [|done].
    destruct (Z.ltb_spec idx (Z.of_nat (length (m_list m))));
      destruct (Z.geb_spec idx 0); simpl; done || lia.
  - intros Hin.
    destruct (m_list m !! Z.to_nat idx) as [key|] eqn:E.
    + exists key. split; [done|]. rewrite remove_spec by done.
      destruct (Z.ltb_spec idx (Z.of_nat (length (m_list m))));
        destruct (Z.geb_spec idx 0); simpl; done || lia.
    + apply lookup_ge_None in E. lia.
Qed.

(** X10. [insert] of a key that is absent, at an index from 0 to
    [size()], puts the key at that index between the entries that were
    before and after it: [size()] goes up by one, the key has that index
    and the position reads [val]. *)
Theorem insert_new_key m (idx : Z) key val :
  bijection m → fits_int m → 0 ≤ idx ≤ size m → m_hash m !! key = None →
  ∃ m',
    insert idx key val m = (Ok tt, m') ∧
    bijection m' ∧
    size m' = size m + 1 ∧
    indexOf m' key = idx ∧
    operator_index T_default idx m' = (Ok val, m') ∧
    m_list m' =
      take (Z.to_nat idx) (m_list m) ++ key :: drop (Z.to_nat idx) (m_list m).
Proof.
  intros Hb Hfit Hidx Habs. pose proof Hb as [Hnd Hkeys].
  pose proof (bijection_absent m key Hb Habs) as Hnotin.
  pose proof (size_fits m Hfit) as Hsize. rewrite Hsize in *.
  pose proof two_INT_MAX_le_SIZE_MAX.
  rewrite insert_spec by done.
  destruct (Z.leb_spec idx (QList_size (m_list m))); [|lia].
  destruct (Z.geb_spec idx 0); [|lia]. simpl.
  pose proof (moved_key_position idx key (m_list m) Hnd) as Hmoved.
  rewrite QList_removeOne_notin in * by done.
  destruct Hmoved as [Hat Hpos]; [lia|].
  set (m' := mkLinkedHash _ _).
  exists m'. split_and!; [done| | |done| |].
  - pose proof (bijection_insert idx key val (m_hash m) (m_list m)) as Hb'.
    rewrite QList_removeOne_notin in Hb' by done. apply Hb'. by destruct m.
  - unfold size, m', fits_int, QList_size in *. simpl.
    rewrite length_QList_insert. rewrite to_size_t_small; lia.
  - rewrite <- (Z2Nat.id idx) at 1 by lia.
    apply (operator_index_present T_default _ key); [done|].
    apply lookup_insert_eq.
  - simpl. apply QList_insert_eq.
Qed.

(** X11. [insert] at an index below 0 or above [size()] changes nothing,
    whatever the key and the state of the object. *)
Theorem insert_out_of_range_changes_nothing m (idx : Z) key val :
  fits_int m → ¬ (0 ≤ idx ≤ size m) → insert idx key val m = (Ok tt, m).
Proof.
  intros Hfit. rewrite (size_fits m Hfit). intros Hout.
  unfold insert. run.
  destruct (Z.leb_spec idx (QList_size (m_list m)));
    destruct (Z.geb_spec idx 0); simpl; done || lia.
Qed.

(** X12. After [insert] at an index from 0 to [size()], the key reads
    [val] and every other key reads what it read before, whether the key
    was new or already present. *)
Theorem insert_then_lookup m (idx : Z) key val :
  bijection m → fits_int m → 0 ≤ idx ≤ size m →
  ∃ m',
    insert idx key val m = (Ok tt, m') ∧
    operator_key T_default key m' = (Ok val, m') ∧
    ∀ key', key' ≠ key →
      (operator_key T_default key' m').1 = (operator_key T_default key' m).1.
Proof.
  intros Hb Hfit Hidx. rewrite (size_fits m Hfit) in Hidx.
  rewrite insert_spec by done.
  destruct (Z.leb_spec idx (QList_size (m_list m))); [|lia].
  destruct (Z.geb_spec idx 0); [|lia]. simpl.
  eexists. split; [done|]. split.
  - rewrite operator_key_value. simpl. by rewrite lookup_insert_eq.
  - intros key' Hne. rewrite !operator_key_value. simpl.
    by rewrite lookup_insert_ne.
Qed.

(** X13. [indexOf] is [-1] exactly for the keys the map does not hold; for
    a key it holds, [indexOf] is a position of the map, and positional
    access there reads what access by the key reads. *)
Theorem indexOf_agrees_with_access m key :
  bijection m → fits_int m →
  (indexOf m key = -1 ↔ m_hash m !! key = None) ∧
  (is_Some (m_hash m !! key) →
     0 ≤ indexOf m key < size m ∧
     operator_index T_default (indexOf m key) m =
       operator_key T_default key m).
Proof.
  intros Hb Hfit. pose proof Hb as [Hnd Hkeys].
  rewrite (size_fits m Hfit). unfold indexOf. split.
  - rewrite QList_indexOf_absent, Hkeys. by rewrite eq_None_not_Some.
  - intros Hin. pose proof (bijection_present m key Hb Hin) as Hl.
    split; [by apply QList_indexOf_lt_length|].
    destruct (QList_indexOf_found _ _ Hl) as (n & Hn & _ & ->).
    destruct Hin as [val Hval].
    rewrite (operator_index_present T_default n key val) by done.
    by rewrite (operator_key_present T_default val).
Qed.

Lemma toList_each_spec {ConvertT} (convert : T → ConvertT) m idxs acc :
  (∀ i, i ∈ idxs → 0 ≤ i < QList_size (m_list m)) →
  ∃ keys,
    Forall2 (λ i key, m_list m !! Z.to_nat i = Some key) idxs keys ∧
    toList_each T_default convert idxs acc m =
      (Ok (acc ++ ((λ key, convert (QHash_value T_default (m_hash m) key))
                     <$> keys)), m).
Proof.
  revert acc. induction idxs as [|i idxs IH]; intros acc Hin.
  - exists []. split; [constructor|]. simpl. by rewrite app_nil_r.
  - assert (0 ≤ i < QList_size (m_list m)) as Hi by (apply Hin; left).
    destruct (lookup_lt_is_Some_2 (m_list m) (Z.to_nat i)) as [key Hkey].
    { unfold QList_size in Hi. lia. }
    destruct (IH (acc ++ [convert (QHash_value T_default (m_hash m) key)]))
      as (keys & Hkeys & Hrun).
    { intros j Hj. apply Hin. by right. }
    exists (key :: keys). split; [by constructor|].
    simpl. run.
    rewrite <- (Z2Nat.id i) at 1 by lia.
    rewrite (QList_at_ok _ _ key Hkey). simpl.
    rewrite Hrun. by rewrite <- app_assoc.
Qed.

Lemma toList_spec {ConvertT} (convert : T → ConvertT) m :
  toList T_default convert m =
    (Ok ((λ key, convert (QHash_value T_default (m_hash m) key))
           <$> m_list m), m).
Proof.
  destruct (toList_each_spec convert m (seqZ 0 (QList_size (m_list m))) [])
    as (keys & Hkeys & Hrun).
  { intros i Hi%elem_of_seqZ. lia. }
  assert (keys = m_list m) as ->.
  { apply list_eq. intros n.
    destruct (decide (n < length (m_list m))%nat) as [Hn|Hn].
    - pose proof (Forall2_lookup_l _ _ _ n (0 + Z.of_nat n) Hkeys)
        as (key & Hk & Hl).
      { apply lookup_seqZ_lt. unfold QList_size. lia. }
      rewrite Hk. rewrite <- Hl. f_equal. lia.
    - apply Forall2_length in Hkeys. rewrite length_seqZ in Hkeys.
      unfold QList_size in Hkeys.
      rewrite !lookup_ge_None_2; [done|lia|lia]. }
  unfold toList. run. by rewrite Hrun.
Qed.

(** X14. [toList] returns without an error, leaves the map as it is, and
    gives one converted value per position, in the order of the map: the
    element at [i] is the conversion of what the hash gives for the key at
    [i], which is what positional access reads there. *)
Theorem toList_lists_values_in_order {ConvertT} (convert : T → ConvertT) m :
  fits_int m →
  ∃ xs,
    toList T_default convert m = (Ok xs, m) ∧
    xs = (λ key, convert (QHash_value T_default (m_hash m) key)) <$> m_list m ∧
    Z.of_nat (length xs) = size m ∧
    ∀ i : nat, Z.of_nat i < size m →
      ∃ val, operator_index T_default (Z.of_nat i) m = (Ok val, m) ∧
             xs !! i = Some (convert val).
Proof.
  intros Hfit. rewrite (size_fits m Hfit).
  pose proof (toList_spec convert m) as Hrun.
  eexists. split_and!; [exact Hrun|done| |].
  - simpl. by rewrite length_fmap.
  - intros i Hi. unfold QList_size in Hi.
    destruct (lookup_lt_is_Some_2 (m_list m) i) as [key Hkey]; [lia|].
    exists (QHash_value T_default (m_hash m) key). split.
    + unfold operator_index. run. unfold QList_size.
      destruct (Z.ltb_spec (Z.of_nat i) (Z.of_nat (length (m_list m))));
        [|lia].
      destruct (Z.geb_spec (Z.of_nat i) 0); [|lia]. simpl.
      by rewrite (QList_at_ok _ _ key Hkey).
    + simpl. by rewrite list_lookup_fmap, Hkey.
Qed.

(** X15. When the invariant holds, [size()], which is the length of the
    order list, is the number of entries of the hash. *)
Theorem size_counts_hash_entries m :
  bijection m → fits_int m → size m = Z.of_nat (base.size (m_hash m)).
Proof.
  intros [Hnd Hkeys] Hfit. rewrite (size_fits m Hfit). unfold QList_size.
  f_equal. rewrite <- size_dom.
  rewrite <- (size_list_to_set (C := gset Key) (m_list m)) by done.
  f_equal. apply set_eq. intros key.
  by rewrite elem_of_list_to_set, elem_of_dom, Hkeys.
Qed.

(** X16. [insert] of a key that is absent followed by [remove] of that
    key gives the map back as it was. *)
Theorem insert_then_remove_restores m (idx : Z) key val :
  bijection m → m_hash m !! key = None →
  (insert idx key val ;;; remove key) m = (Ok tt, m).
Proof.
  intros Hb Habs. pose proof (bijection_absent m key Hb Habs) as Hnotin.
  unfold bind at 1. rewrite insert_spec by done.
  destruct (_ && _).
  - rewrite remove_spec.
    + simpl. rewrite (QList_removeOne_notin key (m_list m)) by done.
      rewrite QList_removeOne_insert by done.
      rewrite delete_insert_eq, delete_id by done. by destruct m.
    + pose proof (bijection_insert idx key val (m_hash m) (m_list m)) as Hb'.
      apply Hb'. by destruct m.
  - unfold remove. run.
    apply QHash_contains_false in Habs. by rewrite Habs.
Qed.

Lemma QList_indexOf_insert_between pre post key key' :
  key ≠ key' → key' ∈ pre ++ post →
  QList_indexOf (pre ++ key :: post) key' =
    if QList_indexOf (pre ++ post) key' <? Z.of_nat (length pre)
    then QList_indexOf (pre ++ post) key'
    else QList_indexOf (pre ++ post) key' + 1.
Proof.
  intros Hne Hin. unfold QList_indexOf.
  destruct (decide (key' ∈ pre)) as [Hpre|Hout].
  - rewrite !QList_indexOf_from_app_l by done.
    pose proof (QList_indexOf_lt_length pre key' Hpre) as Hlt.
    unfold QList_indexOf in Hlt.
    by destruct (Z.ltb_spec (QList_indexOf_from pre key' 0)
                            (Z.of_nat (length pre))); [|lia].
  - apply elem_of_app in Hin as [?|Hpost]; [done|].
    rewrite !QList_indexOf_from_app_r by done. simpl.
    destruct (decide (key = key')); [done|].
    pose proof (QList_indexOf_lt_length post key' Hpost) as Hlt.
    unfold QList_indexOf in Hlt.
    replace (0 + Z.of_nat (length pre) + 1)
      with (0 + (Z.of_nat (length pre) + 1)) by lia.
    rewrite !(QList_indexOf_from_shift post key' 0) by done.
    destruct (Z.ltb_spec (QList_indexOf_from post key' 0
                            + Z.of_nat (length pre))
                         (Z.of_nat (length pre))); lia.
Qed.

(** X17. [insert] of a key that is absent, at an index from 0 to
    [size()], keeps the entries before that index where they are and moves
    the entries from that index on up by one. *)
Theorem insert_new_key_shifts_later_entries m (idx : Z) key val key' :
  bijection m → fits_int m → 0 ≤ idx ≤ size m →
  m_hash m !! key = None → is_Some (m_hash m !! key') →
  ∃ m',
    insert idx key val m = (Ok tt, m') ∧
    indexOf m' key' =
      if indexOf m key' <? idx then indexOf m key' else indexOf m key' + 1.
Proof.
  intros Hb Hfit Hidx Habs Hin'. pose proof Hb as [Hnd Hkeys].
  pose proof (bijection_absent m key Hb Habs) as Hnotin.
  pose proof (bijection_present m key' Hb Hin') as Hl'.
  assert (key ≠ key') as Hne by (intros ->; done).
  rewrite (size_fits m Hfit) in Hidx. unfold QList_size in Hidx.
  rewrite insert_spec by done. unfold QList_size.
  destruct (Z.leb_spec idx (Z.of_nat (length (m_list m)))); [|lia].
  destruct (Z.geb_spec idx 0); [|lia]. simpl.
  eexists. split; [done|]. unfold indexOf. simpl.
  rewrite QList_removeOne_notin, QList_insert_eq by done.
  pose proof (QList_indexOf_insert_between
                (take (Z.to_nat idx) (m_list m))
                (drop (Z.to_nat idx) (m_list m)) key key' Hne) as Hshift.
  rewrite take_drop, length_take in Hshift.
  replace (Z.of_nat (Z.to_nat idx `min` length (m_list m))) with idx
    in Hshift by lia.
  by apply Hshift.
Qed.

(** X18. Dereferencing an iterator at a position of the map, when the
    invariant holds, reads what positional access reads there and leaves the
    map as it is. At any other index, [end()] included, the list access
    inside has no defined behaviour. Where the hash does not hold the key
    of the position, dereferencing inserts it with a default value. *)
Theorem Iterator_deref_reads_position m (this : positive) (idx : Z) :
  fits_int m →
  (bijection m → 0 ≤ idx < size m →
     Iterator_deref T_default (mkIterator this idx) m =
       operator_index T_default idx m ∧
     (Iterator_deref T_default (mkIterator this idx) m).2 = m ∧
     ∃ val, (Iterator_deref T_default (mkIterator this idx) m).1 = Ok val) ∧
  (¬ (0 ≤ idx < size m) →
     Iterator_deref T_default (mkIterator this idx) m = (Err qt_assert, m)) ∧
  (∀ key, m_list m !! Z.to_nat idx = Some key → 0 ≤ idx →
          m_hash m !! key = None →
     Iterator_deref T_default (mkIterator this idx) m =
       (Ok T_default,
        mkLinkedHash (<[key := T_default]> (m_hash m)) (m_list m))).
Proof.
  intros Hfit. rewrite (size_fits m Hfit). unfold QList_size.
  split_and!.
  - intros Hb Hidx.
    destruct (lookup_lt_is_Some_2 (m_list m) (Z.to_nat idx)) as [key Hkey];
      [lia|].
    pose proof Hb as [_ Hkeys].
    destruct (proj1 (Hkeys key)) as [val Hval].
    { by eapply list_elem_of_lookup_2. }
    rewrite <- (Z2Nat.id idx) by lia.
    rewrite (operator_index_present T_default _ key val) by done.
    unfold Iterator_deref. run.
    rewrite (QList_at_ok _ _ key Hkey). simpl. rewrite Hval.
    split_and!; [done..|]. by exists val.
  - intros Hout. unfold Iterator_deref. run. unfold QList_at, QList_size.
    destruct (Z.leb_spec 0 idx);
      destruct (Z.ltb_spec idx (Z.of_nat (length (m_list m))));
      simpl; done || lia.
  - intros key Hkey Hpos Habs.
    unfold Iterator_deref. run.
    rewrite <- (Z2Nat.id idx) at 1 by lia.
    rewrite (QList_at_ok _ _ key Hkey). simpl. by rewrite Habs.
Qed.

Lemma iterate_from_spec m (this : positive) (n : nat) :
  bijection m → fits_int m →
  ∀ (fuel : nat) (i : nat) (out : list T),
    (i + n = length (m_list m))%nat → (n < fuel)%nat →
    iterate_from T_default fuel this (mkIterator this (Z.of_nat i)) out m =
      (Ok (Some (out ++ (QHash_value T_default (m_hash m)
                           <$> drop i (m_list m)))), m).
Proof.
  intros Hb Hfit. pose proof Hb as [_ Hkeys]. unfold fits_int in Hfit.
  unfold QList_size in Hfit.
  induction n as [|n IH]; intros fuel i out Hlen Hfuel;
    (destruct fuel as [|fuel]; [lia|]); simpl; run;
    unfold Iterator_ne, Iterator_eq, QList_size; simpl;
    rewrite bool_decide_eq_true_2 by done; simpl.
  - destruct (Z.eqb_spec (Z.of_nat i) (Z.of_nat (length (m_list m))));
      [|lia]. simpl.
    rewrite drop_ge by lia. by rewrite app_nil_r.
  - destruct (Z.eqb_spec (Z.of_nat i) (Z.of_nat (length (m_list m))));
      [lia|]. simpl.
    destruct (lookup_lt_is_Some_2 (m_list m) i) as [key Hkey]; [lia|].
    destruct (proj1 (Hkeys key)) as [val Hval].
    { by eapply list_elem_of_lookup_2. }
    unfold Iterator_deref. run.
    rewrite (QList_at_ok _ _ key Hkey). simpl. rewrite Hval. simpl.
    unfold Iterator_incr. simpl.
    destruct (Z.ltb_spec (Z.of_nat i) INT_MAX); [|lia].
    replace (Z.of_nat i + 1) with (Z.of_nat (S i)) by lia.
    rewrite IH by lia.
    rewrite (drop_S _ key i Hkey). simpl.
    unfold QHash_value at 2. rewrite Hval. simpl.
    by rewrite <- app_assoc.
Qed.

(** X19. When the invariant holds, the loop from [begin()] to [end()]
    finishes after [size()] steps, leaves the map as it is, and collects
    the values in the order of the map: the list that [toList] returns with
    the identity conversion. *)
Theorem iterate_visits_values_in_order m (this : positive) (fuel : nat) :
  bijection m → fits_int m → (length (m_list m) < fuel)%nat →
  ∃ vals,
    iterate T_default fuel this m = (Ok (Some vals), m) ∧
    toList T_default id m = (Ok vals, m) ∧
    Z.of_nat (length vals) = size m.
Proof.
  intros Hb Hfit Hfuel. unfold iterate, begin. run.
  change 0 with (Z.of_nat 0).
  rewrite (iterate_from_spec m this (length (m_list m))) by (done || lia).
  simpl. eexists. split; [done|]. split.
  - by rewrite toList_spec.
  - rewrite length_fmap. by rewrite (size_fits m Hfit).
Qed.

End Laws.
End LinkedHashLaws.

(** ** The further properties on the sample objects *)

Module CircularBufferLawsExamples.
Import CInt CircularBuffer CircularBufferFacts CircularBufferLaws Samples.

Ltac wf_sample :=
  split; unfold capacity, QVector_size, INT_MAX; simpl; lia.

Lemma push_back_appends_and_evicts_witness :
  wf bcd3 ∧
  ∃ b',
    push_back 5 bcd3 = (Ok tt, b') ∧
    capacity b' = capacity bcd3 ∧
    size b' = Z.min (size bcd3 + 1) (capacity bcd3) ∧
    contents 0 b' = last_n (Z.to_nat (capacity bcd3)) (contents 0 bcd3 ++ [5]).
Proof.
  split; [wf_sample|].
  apply (push_back_appends_and_evicts 0 bcd3 5). wf_sample.
Defined.

Lemma remove_front_drops_oldest_witness :
  wf bcd3 ∧
  ∃ b',
    remove_front bcd3 = (Ok tt, b') ∧
    capacity b' = capacity bcd3 ∧
    size b' = Z.max (size bcd3 - 1) 0 ∧
    contents 0 b' = drop 1 (contents 0 bcd3) ∧
    (size bcd3 = 0 → b' = bcd3).
Proof.
  split; [wf_sample|].
  apply (remove_front_drops_oldest 0 bcd3). wf_sample.
Defined.

Lemma clear_forgets_contents_witness :
  wf bcd3 ∧
  ∃ b0 b',
    clear bcd3 = (Ok tt, b0) ∧
    m_buffer b0 = m_buffer bcd3 ∧ size b0 = 0 ∧ isEmpty b0 = true ∧
    front 0 n_default b0 = (Ok [], b0) ∧
    push_all [7; 8] b0 = (Ok tt, b') ∧
    capacity b' = capacity bcd3 ∧
    contents 0 b' = last_n (Z.to_nat (capacity bcd3)) [7; 8].
Proof.
  split; [wf_sample|].
  apply (clear_forgets_contents 0 bcd3 [7; 8]). wf_sample.
Defined.

Lemma front_back_are_prefix_and_suffix_witness :
  wf bcd3 ∧ 0 ≤ 2 ≤ SIZE_MAX ∧
  (0 < 2 →
     front 0 2 bcd3 = (Ok (take (Z.to_nat 2) (contents 0 bcd3)), bcd3) ∧
     back 0 2 bcd3 = (Ok (last_n (Z.to_nat 2) (contents 0 bcd3)), bcd3)) ∧
  (2 = 0 ∨ 2 = n_default →
     front 0 2 bcd3 = (Ok (contents 0 bcd3), bcd3) ∧
     back 0 2 bcd3 = (Ok (contents 0 bcd3), bcd3)).
Proof.
  split; [wf_sample|]. split; [by vm_compute|].
  apply (front_back_are_prefix_and_suffix 0 bcd3 2);
    [wf_sample|by vm_compute].
Defined.

Lemma assign_then_read_witness :
  wf bcd3 ∧ 0 ≤ 1 < size bcd3 ∧
  ∃ b',
    operator_index_assign 1 9 bcd3 = (Ok tt, b') ∧
    wf b' ∧ size b' = size bcd3 ∧ capacity b' = capacity bcd3 ∧
    contents 0 b' = <[Z.to_nat 1 := 9]> (contents 0 bcd3) ∧
    operator_index 0 1 b' = (Ok 9, b').
Proof.
  split; [wf_sample|]. split; [by vm_compute|].
  apply (assign_then_read 0 bcd3 1 9); [wf_sample|by vm_compute].
Defined.

Lemma size_stays_within_capacity_witness :
  0 ≤ 3 ≤ INT_MAX ∧
  ∃ b0 b,
    new 0 3 = Ok b0 ∧
    capacity b0 = 3 ∧ size b0 = 0 ∧
    run_ops calls b0 = (Ok tt, b) ∧
    capacity b = 3 ∧ 0 ≤ size b ≤ 3 ∧
    length (contents 0 b) = Z.to_nat (size b).
Proof.
  split; [by vm_compute|].
  apply (size_stays_within_capacity 0 3 calls). by vm_compute.
Defined.

Lemma contents_follow_queue_witness :
  0 ≤ 3 ≤ INT_MAX ∧
  ∃ b0 b,
    new 0 3 = Ok b0 ∧
    run_ops calls b0 = (Ok tt, b) ∧
    front 0 n_default b =
      (Ok (foldl (λ q o, queue_op (Z.to_nat 3) o q) [] calls), b).
Proof.
  split; [by vm_compute|].
  apply (contents_follow_queue 0 3 calls). by vm_compute.
Defined.

(** The sample sequence of calls, on the buffer and on the list. *)
Example calls_on_fresh3 :
  run_ops calls fresh3 = (Ok tt, bcd3) ∧
  foldl (λ q o, queue_op 3 o q) [] calls = [2; 3; 4].
Proof. by vm_compute. Qed.

End CircularBufferLawsExamples.

Module LinkedHashLawsExamples.
Import CInt LinkedHash LinkedHashFacts LinkedHashLaws Samples.

Lemma xy_bijective : bijection xy.
Proof. apply run_ops_bijection, new_bijection. Qed.

Lemma remove_absent_changes_nothing_witness :
  m_hash xy !! "z"%string = None ∧ remove "z"%string xy = (Ok tt, xy).
Proof.
  split; [by vm_compute|].
  apply (remove_absent_changes_nothing xy "z"%string). by vm_compute.
Defined.

Lemma remove_present_key_witness :
  bijection xy ∧ fits_int xy ∧ is_Some (m_hash xy !! "x"%string) ∧
  ∃ m',
    remove "x"%string xy = (Ok tt, m') ∧
    bijection m' ∧
    size m' = size xy - 1 ∧
    operator_key 0 "x"%string m' = (Ok 0, m') ∧
    indexOf m' "x"%string = -1 ∧
    m_list m' = filter (λ x, x ≠ "x"%string) (m_list xy) ∧
    ∀ key', key' ≠ "x"%string → m_hash m' !! key' = m_hash xy !! key'.
Proof.
  split; [apply xy_bijective|]. split; [by vm_compute|].
  split; [exists 1; by vm_compute|].
  apply (remove_present_key 0 xy "x"%string);
    [apply xy_bijective|by vm_compute|exists 1; by vm_compute].
Defined.

Lemma removeAt_removes_key_at_position_witness :
  bijection xy ∧ fits_int xy ∧
  (¬ (0 ≤ 1 < size xy) → removeAt 1 xy = (Ok tt, xy)) ∧
  (0 ≤ 1 < size xy →
     ∃ key, m_list xy !! Z.to_nat 1 = Some key ∧
            removeAt 1 xy = remove key xy).
Proof.
  split; [apply xy_bijective|]. split; [by vm_compute|].
  apply (removeAt_removes_key_at_position xy 1);
    [apply xy_bijective|by vm_compute].
Defined.

Lemma insert_new_key_witness :
  bijection xy ∧ fits_int xy ∧ 0 ≤ 1 ≤ size xy ∧
  m_hash xy !! "z"%string = None ∧
  ∃ m',
    insert 1 "z"%string 3 xy = (Ok tt, m') ∧
    bijection m' ∧
    size m' = size xy + 1 ∧
    indexOf m' "z"%string = 1 ∧
    operator_index 0 1 m' = (Ok 3, m') ∧
    m_list m' =
      take (Z.to_nat 1) (m_list xy) ++ "z"%string :: drop (Z.to_nat 1) (m_list xy).
Proof.
  split; [apply xy_bijective|]. split; [by vm_compute|].
  split; [by vm_compute|]. split; [by vm_compute|].
  apply (insert_new_key 0 xy 1 "z"%string 3);
    [apply xy_bijective|by vm_compute..].
Defined.

Lemma insert_out_of_range_changes_nothing_witness :
  fits_int xy ∧ ¬ (0 ≤ 5 ≤ size xy) ∧
  insert 5 "z"%string 3 xy = (Ok tt, xy).
Proof.
  split; [by vm_compute|].
  assert (¬ (0 ≤ 5 ≤ size xy)) as Hout.
  { intros [_ Hle]. by vm_compute in Hle. }
  split; [exact Hout|].
  apply (insert_out_of_range_changes_nothing xy 5 "z"%string 3);
    [by vm_compute|exact Hout].
Defined.

Lemma insert_then_lookup_witness :
  bijection xy ∧ fits_int xy ∧ 0 ≤ 0 ≤ size xy ∧
  ∃ m',
    insert 0 "y"%string 9 xy = (Ok tt, m') ∧
    operator_key 0 "y"%string m' = (Ok 9, m') ∧
    ∀ key', key' ≠ "y"%string →
      (operator_key 0 key' m').1 = (operator_key 0 key' xy).1.
Proof.
  split; [apply xy_bijective|]. split; [by vm_compute|].
  split; [by vm_compute|].
  apply (insert_then_lookup 0 xy 0 "y"%string 9);
    [apply xy_bijective|by vm_compute..].
Defined.

Lemma indexOf_agrees_with_access_witness :
  bijection xy ∧ fits_int xy ∧
  (indexOf xy "y"%string = -1 ↔ m_hash xy !! "y"%string = None) ∧
  (is_Some (m_hash xy !! "y"%string) →
     0 ≤ indexOf xy "y"%string < size xy ∧
     operator_index 0 (indexOf xy "y"%string) xy =
       operator_key 0 "y"%string xy).
Proof.
  split; [apply xy_bijective|]. split; [by vm_compute|].
  apply (indexOf_agrees_with_access 0 xy "y"%string);
    [apply xy_bijective|by vm_compute].
Defined.

Lemma toList_lists_values_in_order_witness :
  fits_int xy ∧
  ∃ xs,
    toList 0 Z.opp xy = (Ok xs, xy) ∧
    xs = (λ key, Z.opp (QHash_value 0 (m_hash xy) key)) <$> m_list xy ∧
    Z.of_nat (length xs) = size xy ∧
    ∀ i : nat, Z.of_nat i < size xy →
      ∃ val, operator_index 0 (Z.of_nat i) xy = (Ok val, xy) ∧
             xs !! i = Some (Z.opp val).
Proof.
  split; [by vm_compute|].
  apply (toList_lists_values_in_order 0 Z.opp xy). by vm_compute.
Defined.

Lemma size_counts_hash_entries_witness :
  bijection xy ∧ fits_int xy ∧ size xy = Z.of_nat (base.size (m_hash xy)).
Proof.
  split; [apply xy_bijective|]. split; [by vm_compute|].
  apply (size_counts_hash_entries xy); [apply xy_bijective|by vm_compute].
Defined.

Lemma insert_then_remove_restores_witness :
  bijection xy ∧ m_hash xy !! "z"%string = None ∧
  (insert 1 "z"%string 3 ;;; remove "z"%string) xy = (Ok tt, xy).
Proof.
  split; [apply xy_bijective|]. split; [by vm_compute|].
  apply (insert_then_remove_restores xy 1 "z"%string 3);
    [apply xy_bijective|by vm_compute].
Defined.

Lemma insert_new_key_shifts_later_entries_witness :
  bijection xy ∧ fits_int xy ∧ 0 ≤ 1 ≤ size xy ∧
  m_hash xy !! "z"%string = None ∧ is_Some (m_hash xy !! "y"%string) ∧
  ∃ m',
    insert 1 "z"%string 3 xy = (Ok tt, m') ∧
    indexOf m' "y"%string =
      if indexOf xy "y"%string <? 1
      then indexOf xy "y"%string else indexOf xy "y"%string + 1.
Proof.
  split; [apply xy_bijective|]. split; [by vm_compute|].
  split; [by vm_compute|]. split; [by vm_compute|].
  split; [exists 2; by vm_compute|].
  apply (insert_new_key_shifts_later_entries xy 1 "z"%string 3 "y"%string);
    [apply xy_bijective|by vm_compute|by vm_compute|by vm_compute
    |exists 2; by vm_compute].
Defined.

Lemma Iterator_deref_reads_position_witness :
  fits_int xy ∧
  (bijection xy → 0 ≤ 1 < size xy →
     Iterator_deref 0 (mkIterator 1%positive 1) xy = operator_index 0 1 xy ∧
     (Iterator_deref 0 (mkIterator 1%positive 1) xy).2 = xy ∧
     ∃ val, (Iterator_deref 0 (mkIterator 1%positive 1) xy).1 = Ok val) ∧
  (¬ (0 ≤ 1 < size xy) →
     Iterator_deref 0 (mkIterator 1%positive 1) xy = (Err qt_assert, xy)) ∧
  (∀ key, m_list xy !! Z.to_nat 1 = Some key → 0 ≤ 1 →
          m_hash xy !! key = None →
     Iterator_deref 0 (mkIterator 1%positive 1) xy =
       (Ok 0, mkLinkedHash (<[key := 0]> (m_hash xy)) (m_list xy))).
Proof.
  split; [by vm_compute|].
  apply (Iterator_deref_reads_position 0 xy 1%positive 1). by vm_compute.
Defined.

Lemma iterate_visits_values_in_order_witness :
  bijection xy ∧ fits_int xy ∧ (length (m_list xy) < 3)%nat ∧
  ∃ vals,
    iterate 0 3 1%positive xy = (Ok (Some vals), xy) ∧
    toList 0 id xy = (Ok vals, xy) ∧
    Z.of_nat (length vals) = size xy.
Proof.
  split; [apply xy_bijective|]. split; [by vm_compute|].
  split; [vm_compute; lia|].
  apply (iterate_visits_values_in_order 0 xy 1%positive 3);
    [apply xy_bijective|by vm_compute|vm_compute; lia].
Defined.

(** The loop on the sample map, and dereferencing [end()]. *)
Example iterate_xy :
  (iterate 0 3 1%positive xy).1 = Ok (Some [1; 2]) ∧
  (iterate 0 2 1%positive xy).1 = Ok None ∧
  (Iterator_deref 0 (mkIterator 1%positive 2) xy).1 = Err qt_assert ∧
  (toList 0 Z.opp xy).1 = Ok [-1; -2].
Proof. by vm_compute. Qed.

End LinkedHashLawsExamples.
